(** * StorageRent: the monthly rent schedule of a lease

    A shallow embedding of [src/StorageRent/StorageRent.ts] and the
    properties of its schedule builder [calculateMonthlyRent] and helpers.

    Data model.
    - A JavaScript [number] that holds money or a rate is a binary64 float:
      Rocq's primitive [float], with the IEEE operations of the kernel.
    - A [number] that holds an integer (a day of the month, a month index, a
      year, the rent change frequency) is a [Z].
    - A [Date] is read by this program only through [getFullYear], [getMonth]
      and [getDate], and built only through [new Date(year, month, day)]: it
      is modelled by its local day number (days since 1970-01-01), with the
      day and year arithmetic of ECMAScript (section "Time Values and Time
      Range").  Local time is taken to have a constant offset and dates are
      taken to lie in the range a [Date] can represent.
    - An array is a list; reading an index that is not there yields
      [undefined], and reading a property of [undefined] throws [TypeError]. *)

From Stdlib Require Import ZArith List Bool Lia Floats.
Import ListNotations.

#[local] Set Warnings "-inexact-float".
#[local] Open Scope Z_scope.

(* ================================================================= *)
(** ** JavaScript numbers *)

Module JSNumber.

(** An integer as a [number]; exact for every integer below [2^53] in
    magnitude, which covers every integer this program converts. *)
Definition of_Z (z : Z) : float :=
  match z with
  | Z0 => PrimFloat.zero
  | Zpos _ => PrimFloat.of_uint63 (Uint63.of_Z z)
  | Zneg _ => PrimFloat.opp (PrimFloat.of_uint63 (Uint63.of_Z (- z)))
  end.

(** A finite binary64 value is [(-1)^s * m * 2^e]; with [53] mantissa bits
    it is integral as soon as [0 <= e].  For a finite value [x] with a
    fractional part, [roundedInteger x] is the integer closest to [x], the
    one closer to +infinity on a tie: [floor (x + 1/2)], computed exactly. *)
Definition roundedInteger (x : float) : option Z :=
  match Prim2SF x with
  | S754_finite s m e =>
      if 0 <=? e then None
      else Some ((2 * (if s then Zneg m else Zpos m) + 2 ^ (- e)) / 2 ^ (- e + 1))
  | _ => None
  end.

(** [Math.round]: a number that is not finite or is already integral is
    returned as it is; otherwise the closest integer, where a zero result
    keeps the sign of the argument. *)
Definition Math_round (x : float) : float :=
  match roundedInteger x with
  | Some n =>
      if n =? 0 then (if (x <? 0)%float then PrimFloat.neg_zero else PrimFloat.zero)
      else of_Z n
  | None => x
  end.

(** [Number(b)] for a boolean [b]. *)
Definition of_bool (b : bool) : float :=
  if b then PrimFloat.one else PrimFloat.zero.

(** [a % b === 0] for integers [a] and [b]: the remainder takes the sign
    of the dividend, and [a % 0] is [NaN], which is not [0]. *)
Definition rem_is_zero (a b : Z) : bool :=
  if b =? 0 then false else Z.rem a b =? 0.

End JSNumber.

(* ================================================================= *)
(** ** JavaScript dates *)

Module JSDate.

(** A date, by its local day number. *)
Record Date : Type := mkDate { localDay : Z }.

Definition DaysInYear (y : Z) : Z :=
  if negb (y mod 4 =? 0) then 365
  else if negb (y mod 100 =? 0) then 366
  else if negb (y mod 400 =? 0) then 365
  else 366.

Definition DayFromYear (y : Z) : Z :=
  365 * (y - 1970) + (y - 1969) / 4 - (y - 1901) / 100 + (y - 1601) / 400.

(** The largest year [y] with [DayFromYear y <= d]: an estimate from the
    mean length of a year, corrected by at most one. *)
Definition YearFromDay (d : Z) : Z :=
  let y := 1970 + (400 * d) / 146097 in
  if d <? DayFromYear y then y - 1
  else if DayFromYear (y + 1) <=? d then y + 1
  else y.

Definition InLeapYear (d : Z) : Z :=
  if DaysInYear (YearFromDay d) =? 366 then 1 else 0.

Definition DayWithinYear (d : Z) : Z := d - DayFromYear (YearFromDay d).

(** The day within a year on which month [m] (0-11) starts. *)
Definition monthStart (leap m : Z) : Z :=
  match m with
  | 0 => 0
  | 1 => 31
  | 2 => 59 + leap
  | 3 => 90 + leap
  | 4 => 120 + leap
  | 5 => 151 + leap
  | 6 => 181 + leap
  | 7 => 212 + leap
  | 8 => 243 + leap
  | 9 => 273 + leap
  | 10 => 304 + leap
  | 11 => 334 + leap
  | _ => 365 + leap
  end.

Definition MonthFromDay (d : Z) : Z :=
  let w := DayWithinYear d in
  let l := InLeapYear d in
  if w <? 31 then 0
  else if w <? 59 + l then 1
  else if w <? 90 + l then 2
  else if w <? 120 + l then 3
  else if w <? 151 + l then 4
  else if w <? 181 + l then 5
  else if w <? 212 + l then 6
  else if w <? 243 + l then 7
  else if w <? 273 + l then 8
  else if w <? 304 + l then 9
  else if w <? 334 + l then 10
  else 11.

Definition DateFromDay (d : Z) : Z :=
  DayWithinYear d + 1 - monthStart (InLeapYear d) (MonthFromDay d).

(** [MakeDay(year, month, date)]: the first day of the month, found after
    carrying [month] into the year, plus [date - 1]. *)
Definition MakeDay (year month date : Z) : Z :=
  let ym := year + month / 12 in
  let mn := month mod 12 in
  let leap := if DaysInYear ym =? 366 then 1 else 0 in
  DayFromYear ym + monthStart leap mn + date - 1.

(** [new Date(year, month, date)]: a year from 0 to 99 means 1900 + year. *)
Definition fullYearOf (year : Z) : Z :=
  if (0 <=? year) && (year <=? 99) then 1900 + year else year.

Definition newDate (year month date : Z) : Date :=
  mkDate (MakeDay (fullYearOf year) month date).

Definition getFullYear (t : Date) : Z := YearFromDay (localDay t).
Definition getMonth (t : Date) : Z := MonthFromDay (localDay t).
Definition getDate (t : Date) : Z := DateFromDay (localDay t).

(** The number of days of month [m] (0-11) of year [y] in the Gregorian
    calendar, used to state what the program computes. *)
Definition isGregorianLeap (y : Z) : bool :=
  (y mod 4 =? 0) && (negb (y mod 100 =? 0) || (y mod 400 =? 0)).

Definition daysOfMonth (y m : Z) : Z :=
  match m with
  | 1 => if isGregorianLeap y then 29 else 28
  | 3 | 5 | 8 | 10 => 30
  | _ => 31
  end.

End JSDate.

Import JSNumber JSDate.

(* ================================================================= *)
(** ** The program *)

Record MonthlyRentRecord : Type := mkRecord {
  vacancy : bool;
  rentAmount : float;
  rentDueDate : Date
}.

Definition MonthlyRentRecords : Type := list MonthlyRentRecord.

Record Contract : Type := mkContract {
  baseMonthlyRent : float;
  leaseStartDate : Date;
  windowStartDate : Date;
  windowEndDate : Date;
  dayOfMonthRentDue : Z;
  rentRateChangeFrequency : Z;
  rentChangeRate : float
}.

(** What a call does: it returns a value or throws. *)
Inductive JsError : Type := TypeError.

Inductive completion (A : Type) : Type :=
| Normal (a : A)
| Throw (e : JsError).
Arguments Normal {A} a.
Arguments Throw {A} e.

Definition calculateNewMonthlyRent (baseMonthlyRent rentChangeRate : float) : float :=
  (baseMonthlyRent * (1 + rentChangeRate))%float.

(** As the source has it: a year divisible by 100 is never counted, also
    when it is divisible by 400.  Its only use is the assignment that
    [correctRentDueDate] overwrites. *)
Definition isLeapYear (year : Z) : bool :=
  (Z.rem year 4 =? 0) && negb (Z.rem year 100 =? 0).

Definition roundToTwoDecimalPlaces (value : float) : float :=
  (Math_round (value * 100) / 100)%float.

Definition calculateMonthDifference (windowEndDate windowStartDate : Date) : Z :=
  if getFullYear windowStartDate >? getFullYear windowEndDate then -1
  else if getFullYear windowStartDate =? getFullYear windowEndDate then
    getMonth windowEndDate - getMonth windowStartDate
  else
    let countMonthsInYear :=
      (getFullYear windowEndDate - getFullYear windowStartDate - 1) * 12 in
    if getMonth windowStartDate >? getMonth windowEndDate then
      getMonth windowStartDate - getMonth windowEndDate + countMonthsInYear
    else
      getMonth windowEndDate - getMonth windowStartDate + countMonthsInYear.

Definition isVacant (rentChangeRate : float) : bool :=
  (rentChangeRate <? 0)%float.

Definition getDaysInMonth (year month : Z) : Z :=
  getDate (newDate year (month + 1) 0).

(** The first assignment to [daysInMonth] is overwritten before it is read. *)
Definition correctRentDueDate (year month dayOfMonthRentDue : Z) : Date :=
  let daysInMonth :=
    if (month =? 1) && (dayOfMonthRentDue >? 28)
    then Some (if isLeapYear year then 29 else 28)
    else None in
  let daysInMonth := getDaysInMonth year month in
  if dayOfMonthRentDue >? daysInMonth
  then newDate year month daysInMonth
  else newDate year month dayOfMonthRentDue.

Definition calculateFirstMonthRent
    (dayOfMonthRentDue : Z) (leaseStartDate : Date)
    (baseMonthlyRent rentChangeRate : float) : MonthlyRentRecords :=
  if dayOfMonthRentDue =? getDate leaseStartDate then
    [ mkRecord (isVacant rentChangeRate) baseMonthlyRent
        (correctRentDueDate (getFullYear leaseStartDate)
           (getMonth leaseStartDate) dayOfMonthRentDue) ]
  else
    let isLeaseStartDateAfterDueDate :=
      dayOfMonthRentDue <? getDate leaseStartDate in
    let calcRent :=
      roundToTwoDecimalPlaces
        (baseMonthlyRent
         * (of_bool isLeaseStartDateAfterDueDate
            - of_Z (dayOfMonthRentDue - getDate leaseStartDate) / 30)
         * (if isLeaseStartDateAfterDueDate then 1 else -1))%float in
    if isLeaseStartDateAfterDueDate then
      [ mkRecord (isVacant rentChangeRate) calcRent
          (correctRentDueDate (getFullYear leaseStartDate)
             (getMonth leaseStartDate) dayOfMonthRentDue) ]
    else
      [ mkRecord (isVacant rentChangeRate) calcRent leaseStartDate;
        mkRecord (isVacant rentChangeRate) baseMonthlyRent
          (correctRentDueDate (getFullYear leaseStartDate)
             (getMonth leaseStartDate) dayOfMonthRentDue) ].

(** [records[records.length - 1]] and [records[month]]: [None] is
    [undefined]. *)
Definition lastRecord (records : MonthlyRentRecords) : option MonthlyRentRecord :=
  nth_error records (length records - 1)%nat.

Definition recordAt (records : MonthlyRentRecords) (i : Z) : option MonthlyRentRecord :=
  if i <? 0 then None else nth_error records (Z.to_nat i).

(** The [for] loop of [calculateMonthlyRent], run from the state
    ([month], [records]); [fuel] bounds the number of tests of the loop
    condition, and [None] means that [fuel] did not suffice
    ([calculateMonthlyRent_terminates] shows that it always does). *)
Fixpoint rentLoop (fuel : nat) (contract : Contract) (month : Z)
    (monthlyRentRecords : MonthlyRentRecords)
    : option (completion MonthlyRentRecords) :=
  match fuel with
  | O => None
  | S fuel' =>
    match lastRecord monthlyRentRecords with
    | None => Some (Throw TypeError)
    | Some lastRec =>
      if month <=? calculateMonthDifference (windowEndDate contract)
                     (rentDueDate lastRec)
      then
        let rentDueDate' :=
          correctRentDueDate (getFullYear (leaseStartDate contract))
            (getMonth (rentDueDate lastRec) + 1) (dayOfMonthRentDue contract) in
        let rentAmount' :=
          if rem_is_zero month (rentRateChangeFrequency contract) then
            Some (roundToTwoDecimalPlaces
                    (calculateNewMonthlyRent (rentAmount lastRec)
                       (rentChangeRate contract)))
          else
            match recordAt monthlyRentRecords month with
            | Some r => Some (roundToTwoDecimalPlaces (rentAmount r))
            | None => None
            end in
        match rentAmount' with
        | None => Some (Throw TypeError)
        | Some amount =>
            rentLoop fuel' contract (month + 1)
              (monthlyRentRecords
               ++ [ mkRecord (isVacant (rentChangeRate contract)) amount
                      rentDueDate' ])
        end
      else Some (Normal monthlyRentRecords)
    end
  end.

(** After the first iteration the last record is due in one of twelve
    months of the lease-start year, so the loop condition is bounded by the
    largest month difference over these dates and the first due date. *)
Definition dueDateCandidates (contract : Contract) : list Date :=
  map (fun k => correctRentDueDate (getFullYear (leaseStartDate contract)) k
                  (dayOfMonthRentDue contract))
      [1; 2; 3; 4; 5; 6; 7; 8; 9; 10; 11; 12].

Definition monthBound (contract : Contract) (first : Date) : Z :=
  fold_right Z.max
    (calculateMonthDifference (windowEndDate contract) first)
    (map (calculateMonthDifference (windowEndDate contract))
         (dueDateCandidates contract)).

Definition calculateMonthlyRent (contract : Contract)
    : option (completion MonthlyRentRecords) :=
  let firstMonthRent :=
    calculateFirstMonthRent (dayOfMonthRentDue contract)
      (leaseStartDate contract) (baseMonthlyRent contract)
      (rentChangeRate contract) in
  let monthlyRentRecords := firstMonthRent in
  match lastRecord monthlyRentRecords with
  | None => Some (Throw TypeError)
  | Some lastRec =>
      let month := getMonth (rentDueDate lastRec) in
      rentLoop
        (S (Z.to_nat (monthBound contract (rentDueDate lastRec) - month + 1)))
        contract month monthlyRentRecords
  end.

(* ================================================================= *)
(** ** Vocabulary of the properties *)

(** The month that [new Date(year, month, _)] denotes once [month] is
    carried into the year. *)
Definition carriedYear (year month : Z) : Z := fullYearOf year + month / 12.
Definition carriedMonth (month : Z) : Z := month mod 12.

(** Calendar months counted from year 0. *)
Definition monthIndex (t : Date) : Z := 12 * getFullYear t + getMonth t.

(** A relation that holds between the due dates of every two consecutive
    records. *)
Fixpoint adjacent (R : Date -> Date -> Prop) (rs : MonthlyRentRecords) : Prop :=
  match rs with
  | a :: (b :: _) as tl => R (rentDueDate a) (rentDueDate b) /\ adjacent R tl
  | _ => True
  end.

(** Due dates of consecutive records never decrease. *)
Definition chronological : MonthlyRentRecords -> Prop :=
  adjacent (fun a b => localDay a <= localDay b).

(** Each record is due in the month after the month of the record before. *)
Definition consecutiveMonths : MonthlyRentRecords -> Prop :=
  adjacent (fun a b => monthIndex b = monthIndex a + 1).

(** The months from the lease-start month through the month of the window
    end, and the test that the records are due in exactly these months, one
    record each. *)
Definition windowMonths (contract : Contract) : list Z :=
  map (fun i => monthIndex (leaseStartDate contract) + Z.of_nat i)
      (seq 0 (Z.to_nat (monthIndex (windowEndDate contract)
                        - monthIndex (leaseStartDate contract) + 1))).

Fixpoint sameMonths (l1 l2 : list Z) : bool :=
  match l1, l2 with
  | [], [] => true
  | a :: l1', b :: l2' => (a =? b) && sameMonths l1' l2'
  | _, _ => false
  end.

Definition oneEntryPerMonth (contract : Contract) (rs : MonthlyRentRecords) : bool :=
  sameMonths (map (fun r => monthIndex (rentDueDate r)) rs) (windowMonths contract).

(** The binary64 value 100, as sign, mantissa and exponent. *)
Definition hundred : spec_float := S754_finite false 7036874417766400 (-46).

(** The record that one iteration appends, from the state ([month], [rs])
    whose last record is [lastRec]. *)
Inductive appended (c : Contract) (month : Z) (rs : MonthlyRentRecords)
    (lastRec : MonthlyRentRecord) : MonthlyRentRecord -> Prop :=
| appended_escalated :
    rem_is_zero month (rentRateChangeFrequency c) = true ->
    appended c month rs lastRec
      (mkRecord (isVacant (rentChangeRate c))
         (roundToTwoDecimalPlaces
            (calculateNewMonthlyRent (rentAmount lastRec) (rentChangeRate c)))
         (correctRentDueDate (getFullYear (leaseStartDate c))
            (getMonth (rentDueDate lastRec) + 1) (dayOfMonthRentDue c)))
| appended_copied r :
    rem_is_zero month (rentRateChangeFrequency c) = false ->
    recordAt rs month = Some r ->
    appended c month rs lastRec
      (mkRecord (isVacant (rentChangeRate c))
         (roundToTwoDecimalPlaces (rentAmount r))
         (correctRentDueDate (getFullYear (leaseStartDate c))
            (getMonth (rentDueDate lastRec) + 1) (dayOfMonthRentDue c))).

(** The state of the loop when the lease-start year is read as it is: after
    the records [pre], the records from [f0] on are due in consecutive months
    of the lease-start year, the last one in month [k]. *)
Definition inLeaseYear (c : Contract) (pre : MonthlyRentRecords)
    (f0 : MonthlyRentRecord) (k : Z) (rs : MonthlyRentRecords) : Prop :=
  exists tail body l dd,
    body = f0 :: tail /\
    rs = pre ++ body /\ lastRecord body = Some l /\
    chronological body /\ consecutiveMonths body /\
    getFullYear (rentDueDate l) = getFullYear (leaseStartDate c) /\
    getMonth (rentDueDate l) = k /\
    localDay (rentDueDate l) = MakeDay (getFullYear (leaseStartDate c)) k dd /\
    dd <= daysOfMonth (getFullYear (leaseStartDate c)) k.

(** The amount that follows the amount of record [i] when the loop counter
    equals the index of the last record. *)
Definition nextAmount (c : Contract) (i : nat) (a : MonthlyRentRecord) : float :=
  if rem_is_zero (Z.of_nat i) (rentRateChangeFrequency c)
  then roundToTwoDecimalPlaces
         (calculateNewMonthlyRent (rentAmount a) (rentChangeRate c))
  else roundToTwoDecimalPlaces (rentAmount a).

(** Each amount is taken from the record before it. *)
Definition amountsChained (c : Contract) (rs : MonthlyRentRecords) : Prop :=
  forall i a b,
    nth_error rs i = Some a -> nth_error rs (S i) = Some b ->
    rentAmount b = nextAmount c i a.

(** From index [k] on, each amount is the escalation of the amount of the
    record before it. *)
Definition escalatedFrom (c : Contract) (k : nat) (rs : MonthlyRentRecords) : Prop :=
  forall i a b,
    (k <= i)%nat -> nth_error rs i = Some a -> nth_error rs (S i) = Some b ->
    rentAmount b =
    roundToTwoDecimalPlaces
      (calculateNewMonthlyRent (rentAmount a) (rentChangeRate c)).

(** From index [k] on, each amount is taken from earlier records: the loop
    counter is [delta] less than the number of records, so the record at
    index [n] is the escalation of the record before it when [n - delta]
    is a multiple of the frequency, and otherwise the rounded amount of the
    record [delta] places before it. *)
Definition lookedBack (c : Contract) (k delta : nat) (rs : MonthlyRentRecords) : Prop :=
  forall n a p b,
    (k <= n)%nat ->
    nth_error rs (n - 1) = Some a -> nth_error rs (n - delta) = Some p ->
    nth_error rs n = Some b ->
    rentAmount b =
    if rem_is_zero (Z.of_nat (n - delta)) (rentRateChangeFrequency c)
    then roundToTwoDecimalPlaces
           (calculateNewMonthlyRent (rentAmount a) (rentChangeRate c))
    else roundToTwoDecimalPlaces (rentAmount p).

(** The contract [c] with another window start. *)
Definition withWindowStart (c : Contract) (t : Date) : Contract :=
  mkContract (baseMonthlyRent c) (leaseStartDate c) t (windowEndDate c)
    (dayOfMonthRentDue c) (rentRateChangeFrequency c) (rentChangeRate c).

(* ----------------------------------------------------------------- *)
(** *** Proof steps *)

(** Run [tac] once for each value 0-11 of the month [m]. *)
Ltac each_month m tac :=
  let C := fresh "C" in
  assert (C : m = 0 \/ m = 1 \/ m = 2 \/ m = 3 \/ m = 4 \/ m = 5 \/ m = 6 \/
              m = 7 \/ m = 8 \/ m = 9 \/ m = 10 \/ m = 11) by lia;
  repeat (destruct C as [C|C]; [subst m; tac|]);
  subst m; tac.

(** Decide every comparison [a <? b] of the goal. *)
Ltac split_ltb :=
  repeat match goal with
         | |- context [ ?a <? ?b ] => destruct (Z.ltb_spec a b); try lia
         end.

(* ----------------------------------------------------------------- *)
(** *** The contracts of the scenarios *)

Definition scenarioContract : Contract :=
  mkContract 1000 (newDate 2024 0 15) (newDate 2024 0 1) (newDate 2024 2 31)
    15 12 0.05.

(** Lease from 10 January, rent due on the 15th, window to 30 April. *)
Definition twoSeedContract : Contract :=
  mkContract 1000 (newDate 2024 0 10) (newDate 2024 0 1) (newDate 2024 3 30)
    15 12 0.05.

(** Lease from 10 February, rent due on the 15th, window to 29 February. *)
Definition februaryContract : Contract :=
  mkContract 1000 (newDate 2024 1 10) (newDate 2024 1 1) (newDate 2024 1 29)
    15 12 0.05.

(** The scenario with a window that ends on 10 January, before the first
    due date. *)
Definition shortWindowContract : Contract :=
  mkContract 1000 (newDate 2024 0 15) (newDate 2024 0 1) (newDate 2024 0 10)
    15 12 0.05.

(** Lease from 15 February, rent due on the 15th, window to 31 March. *)
Definition lookbackContract : Contract :=
  mkContract 1000 (newDate 2024 1 15) (newDate 2024 1 1) (newDate 2024 2 31)
    15 12 0.05.

(** The scenario with a window to 30 April. *)
Definition aprilWindowContract : Contract :=
  mkContract 1000 (newDate 2024 0 15) (newDate 2024 0 1) (newDate 2024 3 30)
    15 12 0.05.

(** The scenario with a change every month and a window to March 2027. *)
Definition longWindowContract : Contract :=
  mkContract 1000 (newDate 2024 0 15) (newDate 2024 0 1) (newDate 2027 2 31)
    15 1 0.05.

(** A vacant unit: the rent change rate is negative. *)
Definition vacantContract : Contract :=
  mkContract 1000 (newDate 2024 0 15) (newDate 2024 0 1) (newDate 2024 2 31)
    15 1 (-0.05).

(** Lease from 10 March, rent due on the 15th, window to 30 June. *)
Definition marchContract : Contract :=
  mkContract 1000 (newDate 2024 2 10) (newDate 2024 2 1) (newDate 2024 5 30)
    15 12 0.05.

(** Lease from 15 February, window to 10 February. *)
Definition februaryShortContract : Contract :=
  mkContract 1000 (newDate 2024 1 15) (newDate 2024 1 1) (newDate 2024 1 10)
    15 12 0.05.

(** Lease from 20 January, rent due on the 5th, window to 30 June, a change
    every 3 months. *)
Definition quarterlyContract : Contract :=
  mkContract 1000 (newDate 2024 0 20) (newDate 2024 0 1) (newDate 2024 5 30)
    5 3 0.1.

(** Lease from 31 January, rent due on the 31st, window to 31 December, a
    change every month. *)
Definition yearContract : Contract :=
  mkContract 1000 (newDate 2024 0 31) (newDate 2024 0 1) (newDate 2024 11 31)
    31 1 0.05.

(** Lease from 15 January, on the due day, a whole-number rent and a rate
    of zero, a change every 2 months, window to 31 December. *)
Definition flatContract : Contract :=
  mkContract 1200 (newDate 2024 0 15) (newDate 2024 0 1) (newDate 2024 11 31)
    15 2 0.

(** Lease from 10 January 2024, window over the year 2023. *)
Definition earlierWindowContract : Contract :=
  mkContract 1000 (newDate 2024 0 10) (newDate 2023 0 1) (newDate 2023 11 31)
    15 12 0.05.

(* ================================================================= *)
(** ** Facts about binary64 arithmetic

    Proved from the specification of the primitive operations
    ([FloatAxioms]): multiplying by one is exact, and signs factor out of
    products. *)

Section FloatFacts.

Lemma opp_opp (x : float) : (- - x)%float = x.
Proof.
  apply Prim2SF_inj. rewrite !opp_spec.
  destruct (Prim2SF x) as [s|s| |s m e]; cbn; rewrite ?negb_involutive; reflexivity.
Qed.

Lemma binary_round_aux_opp s m e l :
  binary_round_aux prec emax (negb s) m e l =
  SFopp (binary_round_aux prec emax s m e l).
Proof.
  unfold binary_round_aux.
  destruct (shr_fexp prec emax m e l) as [mrs' e'].
  destruct (shr_fexp prec emax _ e' loc_Exact) as [mrs'' e''].
  destruct (shr_m mrs''); try reflexivity.
  destruct (e'' <=? _); reflexivity.
Qed.

Lemma SFmul_opp_r x y :
  SF64mul x (SFopp y) = SFopp (SF64mul x y).
Proof.
  unfold SF64mul.
  destruct x as [sx|sx| |sx mx ex], y as [sy|sy| |sy my ey]; cbn [SFmul SFopp];
    try (destruct sx, sy; reflexivity); try reflexivity.
  rewrite <- binary_round_aux_opp. f_equal. destruct sx, sy; reflexivity.
Qed.

Lemma mul_opp_r (x y : float) : (x * - y)%float = (- (x * y))%float.
Proof.
  apply Prim2SF_inj. rewrite opp_spec, !mul_spec, opp_spec. apply SFmul_opp_r.
Qed.

Lemma Prim2SF_one : Prim2SF 1 = S754_finite false 4503599627370496 (-52).
Proof. vm_compute. reflexivity. Qed.

Lemma digits2_pos_shift52 m :
  Z.pos (digits2_pos (m * 4503599627370496)) = Z.pos (digits2_pos m) + 52.
Proof.
  rewrite Pos.mul_comm. cbn [Pos.mul digits2_pos]. lia.
Qed.

Lemma shr_shift52 m :
  iter_pos shr_1 52 (Build_shr_record (Z.pos (m * 4503599627370496)) false false)
  = Build_shr_record (Z.pos m) false false.
Proof.
  rewrite Pos.mul_comm. cbn. reflexivity.
Qed.

Lemma SFmul_one_r x :
  valid_binary x = true -> SF64mul x (Prim2SF 1) = x.
Proof.
  rewrite Prim2SF_one. unfold SF64mul.
  destruct x as [s|s| |s m e]; cbn [SFmul valid_binary]; intros V;
    rewrite ?xorb_false_r; try reflexivity.
  unfold bounded, canonical_mantissa in V.
  apply andb_prop in V. destruct V as [C B].
  apply Z.eqb_eq in C. 
  unfold binary_round_aux, shr_fexp.
  cbn [Zdigits2]. rewrite digits2_pos_shift52.
  replace (Z.pos (digits2_pos m) + 52 + (e + -52)) with (Z.pos (digits2_pos m) + e) by lia.
  rewrite C.
  replace (e - (e + -52)) with 52 by lia.
  cbn [shr shr_record_of_loc]. rewrite shr_shift52.
  cbn [shr_m loc_of_shr_record round_nearest_even Zdigits2].
  replace (e + -52 + 52) with e by lia.
  rewrite C, Z.sub_diag. cbn [shr shr_m].
  rewrite B. reflexivity.
Qed.

Lemma mul_one_r (x : float) : (x * 1)%float = x.
Proof.
  apply Prim2SF_inj. rewrite mul_spec. apply SFmul_one_r, Prim2SF_valid.
Qed.

Lemma mul_minus_one_r (x : float) : (x * -1)%float = (- x)%float.
Proof.
  change (-1)%float with (- (1))%float. rewrite mul_opp_r, mul_one_r. reflexivity.
Qed.

Lemma sub_zero_l (q : float) :
  Prim2SF q <> S754_zero false -> (0 - q)%float = (- q)%float.
Proof.
  intros H. apply Prim2SF_inj. rewrite sub_spec, opp_spec.
  change (Prim2SF 0) with (S754_zero false).
  destruct (Prim2SF q) as [[|]|s| |s m e]; try reflexivity. congruence.
Qed.

End FloatFacts.

(* ================================================================= *)
(** ** Rounding in binary64

    What the IEEE specification of division and multiplication
    ([SFdiv], [SFmul]) gives for operands in the normal range: a result of
    53 bits that is off by at most one unit of its last place. *)

(** Bits of a positive number. *)
Lemma digits2_pos_bounds m :
  2 ^ (Z.pos (digits2_pos m) - 1) <= Z.pos m < 2 ^ Z.pos (digits2_pos m).
Proof.
  induction m as [m IH|m IH|]; cbn [digits2_pos].
  - rewrite Pos2Z.inj_succ.
    replace (Z.succ (Z.pos (digits2_pos m)) - 1) with (Z.succ (Z.pos (digits2_pos m) - 1)) by lia.
    rewrite !Z.pow_succ_r by lia. lia.
  - rewrite Pos2Z.inj_succ.
    replace (Z.succ (Z.pos (digits2_pos m)) - 1) with (Z.succ (Z.pos (digits2_pos m) - 1)) by lia.
    rewrite !Z.pow_succ_r by lia. lia.
  - cbn. lia.
Qed.

Lemma digits2_pos_unique m j :
  2 ^ (j - 1) <= Z.pos m < 2 ^ j -> Z.pos (digits2_pos m) = j.
Proof.
  intros [Hlo Hhi]. pose proof (digits2_pos_bounds m) as [Blo Bhi].
  set (d := Z.pos (digits2_pos m)) in *.
  assert (0 < d) by (unfold d; lia).
  destruct (Z.lt_trichotomy d j) as [L|[E|G]]; [|exact E|].
  - assert (2 ^ d <= 2 ^ (j - 1)) by (apply Z.pow_le_mono_r; lia). lia.
  - assert (j <= 0 \/ 0 < j) as [Hj|Hj] by lia.
    + assert (2 ^ j <= 1).
      { destruct (Z.eq_dec j 0) as [->|]; [cbn; lia|].
        rewrite Z.pow_neg_r by lia. lia. }
      lia.
    + assert (2 ^ j <= 2 ^ (d - 1)) by (apply Z.pow_le_mono_r; lia). lia.
Qed.

(** Halving a shift record. *)
Lemma shr_1_m r : 0 <= shr_m r -> shr_m (shr_1 r) = shr_m r / 2.
Proof.
  destruct r as [m rb sb]. cbn [shr_m shr_1]. intros Hm.
  destruct m as [|[p|p|]|p]; cbn [shr_m]; try lia.
  - reflexivity.
  - rewrite Pos2Z.inj_xI. Z.div_mod_to_equations. lia.
  - rewrite Pos2Z.inj_xO. Z.div_mod_to_equations. lia.
  - reflexivity.
Qed.

Lemma iter_pos_shr_m p : forall r,
  0 <= shr_m r ->
  shr_m (iter_pos shr_1 p r) = shr_m r / 2 ^ Z.pos p.
Proof.
  induction p as [p IH|p IH|]; intros r Hr; cbn [iter_pos].
  - assert (H1 : 0 <= shr_m (shr_1 r)) by (rewrite shr_1_m by lia; apply Z.div_pos; lia).
    assert (H2 : 0 <= shr_m (iter_pos shr_1 p (shr_1 r)))
      by (rewrite IH by lia; apply Z.div_pos; [lia|apply Z.pow_pos_nonneg; lia]).
    rewrite IH, IH, shr_1_m by lia.
    rewrite !Z.div_div by (try apply Z.pow_pos_nonneg; lia).
    f_equal.
    replace (Z.pos p~1) with (1 + Z.pos p + Z.pos p) by lia.
    rewrite !Z.pow_add_r by lia. lia.
  - assert (H2 : 0 <= shr_m (iter_pos shr_1 p r))
      by (rewrite IH by lia; apply Z.div_pos; [lia|apply Z.pow_pos_nonneg; lia]).
    rewrite IH, IH by lia.
    rewrite !Z.div_div by (try apply Z.pow_pos_nonneg; lia).
    f_equal.
    replace (Z.pos p~0) with (Z.pos p + Z.pos p) by lia.
    rewrite !Z.pow_add_r by lia. lia.
  - rewrite shr_1_m by lia. reflexivity.
Qed.

Lemma round_nearest_even_bound m l :
  m <= round_nearest_even m l <= m + 1.
Proof.
  destruct l as [|[| |]]; cbn [round_nearest_even]; try lia.
  destruct (Z.even m); lia.
Qed.

(** [shr_fexp] on a number of [d >= 53] bits in the normal range drops
    [d - 53] bits. *)
Lemma shr_fexp_normal M E l d :
  0 < M -> Zdigits2 M = d -> 53 <= d -> -1074 <= d + E - 53 ->
  exists r,
    shr_fexp prec emax M E l = (r, E + (d - 53)) /\
    shr_m r = M / 2 ^ (d - 53).
Proof.
  intros HM Hd H53 Hmin. unfold shr_fexp. rewrite Hd.
  assert (F : fexp prec emax (d + E) - E = d - 53).
  { unfold fexp, SpecFloat.emin, prec, emax. lia. }
  rewrite F. unfold shr.
  destruct (d - 53) as [|p|p] eqn:Hk; try lia.
  - eexists. split; [f_equal; lia|].
    rewrite Z.pow_0_r, Z.div_1_r. destruct l as [|[| |]]; reflexivity.
  - eexists. split; [reflexivity|].
    rewrite iter_pos_shr_m; destruct l as [|[| |]]; cbn [shr_record_of_loc shr_m]; lia.
Qed.

(** Rounding a number of at least 53 bits in the normal range: the result is
    finite and normal, and off by at most one unit of its last place. *)
Lemma binary_round_aux_normal s p E l d :
  Z.pos (digits2_pos p) = d -> 53 <= d -> -1074 <= d + E - 53 -> d + E <= 1023 ->
  exists m k,
    binary_round_aux prec emax s (Z.pos p) E l = S754_finite s m (E + k) /\
    0 <= k /\
    2 ^ 52 <= Z.pos m < 2 ^ 53 /\
    Z.pos p - 2 ^ k <= Z.pos m * 2 ^ k <= Z.pos p + 2 ^ k.
Proof.
  intros Hd H53 Hmin Hmax.
  pose proof (digits2_pos_bounds p) as [Blo Bhi]. rewrite Hd in Blo, Bhi.
  set (k1 := d - 53) in *.
  assert (Hk1 : 0 <= k1) by (unfold k1; lia).
  assert (P1 : 0 < 2 ^ k1) by (apply Z.pow_pos_nonneg; lia).
  assert (Elo : 2 ^ (d - 1) = 2 ^ 52 * 2 ^ k1)
    by (rewrite <- Z.pow_add_r by lia; f_equal; unfold k1; lia).
  assert (Ehi : 2 ^ d = 2 ^ 53 * 2 ^ k1)
    by (rewrite <- Z.pow_add_r by lia; f_equal; unfold k1; lia).
  set (m1 := Z.pos p / 2 ^ k1).
  assert (Hm1 : 2 ^ 52 <= m1 < 2 ^ 53).
  { unfold m1. split.
    - apply Z.div_le_lower_bound; lia.
    - apply Z.div_lt_upper_bound; lia. }
  assert (Hbr : m1 * 2 ^ k1 <= Z.pos p < (m1 + 1) * 2 ^ k1).
  { unfold m1. pose proof (Z.mul_div_le (Z.pos p) (2 ^ k1) P1).
    pose proof (Z.mul_succ_div_gt (Z.pos p) (2 ^ k1) P1). lia. }
  unfold binary_round_aux.
  destruct (shr_fexp_normal (Z.pos p) E l d) as (r1 & -> & Hr1); try assumption; try lia.
  fold k1 in Hr1 |- *. fold m1 in Hr1. rewrite Hr1.
  pose proof (round_nearest_even_bound m1 (loc_of_shr_record r1)) as Hrne.
  set (m2 := round_nearest_even m1 (loc_of_shr_record r1)) in *. clearbody m2.
  assert (C52 : 2 ^ 52 = 4503599627370496) by reflexivity.
  assert (C53 : 2 ^ 53 = 9007199254740992) by reflexivity.
  destruct (Z.eq_dec m2 (2 ^ 53)) as [Etop|Ntop].
  - destruct (shr_fexp_normal m2 (E + k1) loc_Exact 54) as (r2 & -> & Hr2); try lia.
    { rewrite Etop. reflexivity. }
    rewrite Hr2, Etop. change (2 ^ 53 / 2 ^ (54 - 53)) with (Z.pos 4503599627370496).
    cbv iota beta.
    replace (E + k1 + (54 - 53) <=? emax - prec) with true
      by (symmetry; apply Z.leb_le; unfold emax, prec, k1; lia).
    exists 4503599627370496%positive, (k1 + 1).
    split; [f_equal; lia|]. split; [lia|]. split; [lia|].
    assert (Em1 : m1 = 9007199254740991) by lia.
    rewrite Em1 in Hbr.
    rewrite Z.pow_add_r by lia. change (2 ^ 1) with 2. lia.
  - assert (Hm2 : 2 ^ 52 <= m2 < 2 ^ 53) by lia.
    destruct m2 as [|q|q] eqn:Em2; try lia.
    destruct (shr_fexp_normal (Z.pos q) (E + k1) loc_Exact 53) as (r2 & -> & Hr2); try lia.
    { cbn [Zdigits2]. apply digits2_pos_unique. exact Hm2. }
    rewrite Hr2. change (2 ^ (53 - 53)) with 1. rewrite Z.div_1_r.
    cbv iota beta.
    replace (E + k1 + (53 - 53) <=? emax - prec) with true
      by (symmetry; apply Z.leb_le; unfold emax, prec, k1; lia).
    exists q, k1.
    split; [f_equal; lia|]. split; [lia|]. split; [lia|].
    destruct (Z.eq_dec (Z.pos q) m1) as [->|Hne]; [lia|].
    assert (Em1 : Z.pos q = m1 + 1) by lia. rewrite Em1. lia.
Qed.

(** Rounding a number of exactly 53 bits, given exactly, changes nothing. *)
Lemma binary_round_aux_exact s p E :
  Z.pos (digits2_pos p) = 53 -> -1074 <= E -> E <= 970 ->
  binary_round_aux prec emax s (Z.pos p) E loc_Exact = S754_finite s p E.
Proof.
  intros Hd Hmin Hmax.
  assert (F : fexp prec emax (53 + E) - E = 0)
    by (unfold fexp, SpecFloat.emin, prec, emax; lia).
  unfold binary_round_aux, shr_fexp. cbn [Zdigits2]. rewrite Hd, F.
  cbn [shr shr_record_of_loc shr_m loc_of_shr_record round_nearest_even Zdigits2].
  rewrite Hd, F. cbn [shr shr_m].
  replace (E <=? emax - prec) with true
    by (symmetry; apply Z.leb_le; unfold emax, prec; lia).
  reflexivity.
Qed.

Lemma iter_xO_pow p d : Z.pos (Pos.iter xO p d) = Z.pos p * 2 ^ Z.pos d.
Proof.
  induction d as [|d IH] using Pos.peano_ind.
  - cbn [Pos.iter]. lia.
  - rewrite Pos.iter_succ, Pos2Z.inj_xO, IH, Pos2Z.inj_succ, Z.pow_succ_r by lia. lia.
Qed.

(** The integer [N] as a binary64 value: exact below [2^53]. *)
Lemma binary_normalize_integer N :
  1 <= N < 2 ^ 53 ->
  exists ma u,
    binary_normalize prec emax N 0 false = S754_finite false ma (- u) /\
    0 <= u <= 52 /\ Z.pos ma = N * 2 ^ u /\ 2 ^ 52 <= Z.pos ma < 2 ^ 53.
Proof.
  intros HN. destruct N as [|p|p]; try lia.
  cbn [binary_normalize]. unfold binary_round.
  pose proof (digits2_pos_bounds p) as [Blo Bhi].
  set (dp := Z.pos (digits2_pos p)) in *.
  assert (Hdp : 1 <= dp <= 53).
  { split; [unfold dp; lia|].
    destruct (Z.le_gt_cases dp 53) as [|G]; [assumption|].
    assert (2 ^ 53 <= 2 ^ (dp - 1)) by (apply Z.pow_le_mono_r; lia). lia. }
  assert (F : fexp prec emax (dp + 0) = dp - 53)
    by (unfold fexp, SpecFloat.emin, prec, emax; lia).
  rewrite F. unfold shl_align.
  destruct (dp - 53 - 0) as [|d|d] eqn:Hs; try lia.
  - assert (Edp : dp = 53) by lia.
    rewrite binary_round_aux_exact by (fold dp; lia).
    exists p, 0. rewrite Edp in Blo, Bhi. change (53 - 1) with 52 in Blo.
    repeat split; try lia. 
  - set (u := Z.pos d). assert (Hu : u = 53 - dp) by (unfold u; lia).
    assert (Pu : 0 < 2 ^ u) by (apply Z.pow_pos_nonneg; unfold u; lia).
    assert (Hval : Z.pos (Pos.iter xO p d) = Z.pos p * 2 ^ u) by apply iter_xO_pow.
    assert (E52 : 2 ^ 52 = 2 ^ (dp - 1) * 2 ^ u)
      by (rewrite <- Z.pow_add_r by lia; f_equal; lia).
    assert (E53 : 2 ^ 53 = 2 ^ dp * 2 ^ u)
      by (rewrite <- Z.pow_add_r by lia; f_equal; lia).
    assert (Hrange : 2 ^ 52 <= Z.pos (Pos.iter xO p d) < 2 ^ 53).
    { rewrite Hval, E52, E53. split.
      - apply Z.mul_le_mono_nonneg_r; lia.
      - apply Z.mul_lt_mono_pos_r; lia. }
    rewrite binary_round_aux_exact; try lia.
    + exists (Pos.iter xO p d), u.
      split; [f_equal; lia|]. repeat split; try lia.
    + apply digits2_pos_unique. exact Hrange.
Qed.

Lemma Prim2SF_hundred : Prim2SF 100 = hundred.
Proof. vm_compute. reflexivity. Qed.

Lemma digits_from_range p lo hi :
  1 <= lo -> 2 ^ (lo - 1) <= Z.pos p < 2 ^ hi ->
  lo <= Z.pos (digits2_pos p) <= hi.
Proof.
  intros Hlo [H1 H2]. pose proof (digits2_pos_bounds p) as [B1 B2].
  set (d := Z.pos (digits2_pos p)) in *.
  assert (0 < d) by (unfold d; lia).
  split.
  - destruct (Z.le_gt_cases lo d) as [|G]; [assumption|].
    assert (2 ^ d <= 2 ^ (lo - 1)) by (apply Z.pow_le_mono_r; lia). lia.
  - destruct (Z.le_gt_cases d hi) as [|G]; [assumption|].
    assert (0 <= hi \/ hi < 0) as [Hh|Hh] by lia.
    + assert (2 ^ hi <= 2 ^ (d - 1)) by (apply Z.pow_le_mono_r; lia). lia.
    + rewrite (Z.pow_neg_r 2 hi) in H2 by lia. lia.
Qed.

(** Dividing a normal value [ma * 2^(-u)] by 100: the quotient of
    [ma * 2^53] by the mantissa of 100, rounded to 53 bits. *)
Lemma div_hundred s ma u :
  2 ^ 52 <= Z.pos ma < 2 ^ 53 -> 0 <= u <= 52 ->
  exists my k q r,
    SF64div (S754_finite s ma (- u)) hundred = S754_finite s my (- u - 7 + k) /\
    0 <= k /\
    2 ^ 52 <= Z.pos my < 2 ^ 53 /\
    Z.pos ma * 2 ^ 53 = q * 7036874417766400 + r /\
    0 <= r < 7036874417766400 /\
    q - 2 ^ k <= Z.pos my * 2 ^ k <= q + 2 ^ k.
Proof.
  intros Hma Hu.
  assert (C52 : 2 ^ 52 = 4503599627370496) by reflexivity.
  assert (C53 : 2 ^ 53 = 9007199254740992) by reflexivity.
  assert (C54 : 2 ^ 54 = 18014398509481984) by reflexivity.
  unfold SF64div, hundred. cbn [SFdiv]. rewrite xorb_false_r.
  unfold SFdiv_core_binary. cbn [Zdigits2].
  rewrite (digits2_pos_unique ma 53) by exact Hma.
  change (Z.pos (digits2_pos 7036874417766400)) with 53.
  assert (F : Z.min (fexp prec emax (53 + - u - (53 + -46))) (- u - -46) = - u - 7)
    by (unfold fexp, SpecFloat.emin, prec, emax; lia).
  rewrite F.
  replace (- u - -46 - (- u - 7)) with 53 by lia.
  rewrite Z.shiftl_mul_pow2 by lia.
  pose proof (Z_div_mod (Z.pos ma * 2 ^ 53) 7036874417766400 ltac:(lia)) as Hdm.
  destruct (Z.div_eucl (Z.pos ma * 2 ^ 53) 7036874417766400) as [q r].
  destruct Hdm as [Hq Hr].
  assert (Hqr : 2 ^ 52 <= q < 2 ^ 54) by (rewrite C53 in Hq; lia).
  destruct q as [|pq|pq]; try lia.
  pose proof (digits_from_range pq 53 54 ltac:(lia) ltac:(change (53 - 1) with 52; lia)) as Hd.
  destruct (binary_round_aux_normal s pq (- u - 7) (new_location 7036874417766400 r)
              (Z.pos (digits2_pos pq)) eq_refl) as (my & k & -> & Hk & Hmy & Hb); try lia.
  exists my, k, (Z.pos pq), r.
  repeat split; try lia.
Qed.

(** Multiplying a normal value [my * 2^e] by 100. *)
Lemma mul_hundred s my e :
  2 ^ 52 <= Z.pos my < 2 ^ 53 -> -900 <= e <= 800 ->
  exists mw k,
    SF64mul (S754_finite s my e) hundred = S754_finite s mw (e - 46 + k) /\
    0 <= k /\
    2 ^ 52 <= Z.pos mw < 2 ^ 53 /\
    Z.pos my * 7036874417766400 - 2 ^ k <= Z.pos mw * 2 ^ k
      <= Z.pos my * 7036874417766400 + 2 ^ k.
Proof.
  intros Hmy He.
  assert (C52 : 2 ^ 52 = 4503599627370496) by reflexivity.
  assert (C53 : 2 ^ 53 = 9007199254740992) by reflexivity.
  unfold SF64mul, hundred. cbn [SFmul]. rewrite xorb_false_r.
  assert (Hp : 2 ^ (105 - 1) <= Z.pos (my * 7036874417766400) < 2 ^ 106).
  { rewrite Pos2Z.inj_mul.
    change (2 ^ (105 - 1)) with 20282409603651670423947251286016.
    change (2 ^ 106) with 81129638414606681695789005144064. lia. }
  pose proof (digits_from_range _ 105 106 ltac:(lia) Hp) as Hd.
  destruct (binary_round_aux_normal s (my * 7036874417766400) (e + -46) loc_Exact
              (Z.pos (digits2_pos (my * 7036874417766400))) eq_refl)
    as (mw & k & -> & Hk & Hmw & Hb); try lia.
  exists mw, k. rewrite Pos2Z.inj_mul in Hb.
  repeat split; lia.
Qed.

Lemma pow2_le_inv k b : 0 <= k -> 0 <= b -> 2 ^ k < 2 ^ (b + 1) -> k <= b.
Proof.
  intros Hk Hb H. destruct (Z.le_gt_cases k b) as [|G]; [assumption|].
  assert (2 ^ (b + 1) <= 2 ^ k) by (apply Z.pow_le_mono_r; lia). lia.
Qed.

(** Dividing the integer [N], below [2^49], by 100 and multiplying the
    quotient by 100 gives a value less than one half away from [N]. *)
Lemma hundredfold_of_hundredth s N ma u :
  1 <= N < 2 ^ 49 ->
  Z.pos ma = N * 2 ^ u -> 2 ^ 52 <= Z.pos ma < 2 ^ 53 -> 0 <= u <= 52 ->
  exists mw ew,
    SF64mul (SF64div (S754_finite s ma (- u)) hundred) hundred
      = S754_finite s mw ew /\
    ew < 0 /\
    (2 * (if s then Z.neg mw else Z.pos mw) + 2 ^ (- ew)) / 2 ^ (- ew + 1)
      = (if s then - N else N).
Proof.
  intros HN Hval Hma Hu.
  assert (C49 : 2 ^ 49 = 562949953421312) by reflexivity.
  assert (C52 : 2 ^ 52 = 4503599627370496) by reflexivity.
  assert (C53 : 2 ^ 53 = 9007199254740992) by reflexivity.
  assert (C54 : 2 ^ 54 = 18014398509481984) by reflexivity.
  destruct (div_hundred s ma u Hma Hu) as (my & k1 & q & r & -> & Hk1 & Hmy & Hq & Hr & Hb1).
  assert (P1 : 0 < 2 ^ k1) by (apply Z.pow_pos_nonneg; lia).
  (* the quotient keeps at most one extra bit *)
  assert (Hk1' : k1 <= 1).
  { apply pow2_le_inv; [lia|lia|]. change (2 ^ (1 + 1)) with 4. nia. }
  destruct (mul_hundred s my (- u - 7 + k1) Hmy ltac:(lia))
    as (mw & k2 & -> & Hk2 & Hmw & Hb2).
  assert (P2 : 0 < 2 ^ k2) by (apply Z.pow_pos_nonneg; lia).
  assert (HK2 : 2 ^ k2 <= 14073748835532803) by nia.
  assert (Hk2' : k2 <= 53).
  { apply pow2_le_inv; [lia|lia|]. change (2 ^ (53 + 1)) with 18014398509481984. lia. }
  (* the size of [N] fixes that of [2^u] *)
  assert (Pu : 0 < 2 ^ u) by (apply Z.pow_pos_nonneg; lia).
  assert (Hu4 : 4 <= u).
  { destruct (Z.le_gt_cases 4 u) as [|G]; [assumption|].
    assert (2 ^ u <= 2 ^ 3) by (apply Z.pow_le_mono_r; lia).
    change (2 ^ 3) with 8 in *. nia. }
  assert (HU : 16 <= 2 ^ u).
  { change 16 with (2 ^ 4). apply Z.pow_le_mono_r; lia. }
  set (t := u + 53 - k1 - k2).
  assert (Ht : 3 <= t) by (unfold t; lia).
  assert (PT : 0 < 2 ^ t) by (apply Z.pow_pos_nonneg; lia).
  assert (ET : 2 ^ t * (2 ^ k1 * 2 ^ k2) = 2 ^ 53 * 2 ^ u).
  { rewrite <- !Z.pow_add_r by lia. f_equal. unfold t. lia. }
  exists mw, (- u - 7 + k1 - 46 + k2).
  split; [reflexivity|]. split; [lia|].
  replace (- (- u - 7 + k1 - 46 + k2)) with t by (unfold t; lia).
  rewrite Z.pow_add_r by lia. change (2 ^ 1) with 2.
  (* the distance to [N], scaled by [2^(k1+k2)], is below one half *)
  assert (Hclose : - 2 ^ t < 2 * (Z.pos mw - N * 2 ^ t) < 2 ^ t).
  { set (X := Z.pos mw * 2 ^ k2) in *.
    assert (HD : - (2 ^ 52 * 2 ^ u) < X * 2 ^ k1 - Z.pos ma * 2 ^ 53 < 2 ^ 52 * 2 ^ u).
    { assert (k1 = 0 \/ k1 = 1) as [->| ->] by lia.
      - change (2 ^ 0) with 1 in *. lia.
      - change (2 ^ 1) with 2 in *. lia. }
    assert (EW : X * 2 ^ k1 = Z.pos mw * (2 ^ k1 * 2 ^ k2)) by (unfold X; ring).
    assert (EA : Z.pos ma * 2 ^ 53 = N * 2 ^ t * (2 ^ k1 * 2 ^ k2))
      by (rewrite Hval, <- Z.mul_assoc, (Z.mul_comm (2 ^ u)), <- ET; ring).
    assert (EH : 2 * (2 ^ 52 * 2 ^ u) = 2 ^ t * (2 ^ k1 * 2 ^ k2))
      by (rewrite ET, C52, C53; ring).
    rewrite EW, EA in HD.
    set (W := 2 ^ k1 * 2 ^ k2) in *.
    assert (PW : 0 < W) by (unfold W; apply Z.mul_pos_pos; assumption).
    split; apply (Z.mul_lt_mono_pos_r W); try assumption; nia. }
  set (T := 2 ^ t) in *.
  destruct s.
  - symmetry. apply (Z.div_unique _ _ _ (T - 2 * (Z.pos mw - N * T))); [lia|].
    rewrite <- Pos2Z.opp_pos. ring.
  - symmetry. apply (Z.div_unique _ _ _ (2 * (Z.pos mw - N * T) + T)); [lia|].
    ring.
Qed.

(* ================================================================= *)
(** ** Rounding to two decimals *)

(** A non-zero integer below [2^53] in magnitude converts exactly. *)
Lemma Prim2SF_of_Z n :
  1 <= Z.abs n < 2 ^ 53 ->
  exists ma u,
    Prim2SF (of_Z n) = S754_finite (n <? 0) ma (- u) /\
    0 <= u <= 52 /\ Z.pos ma = Z.abs n * 2 ^ u /\ 2 ^ 52 <= Z.pos ma < 2 ^ 53.
Proof.
  intros Hn.
  assert (C53 : 2 ^ 53 = 9007199254740992) by reflexivity.
  assert (Hw : forall p, Z.pos p < 2 ^ 53 ->
            Prim2SF (of_uint63 (Uint63.of_Z (Z.pos p))) =
            binary_normalize prec emax (Z.pos p) 0 false).
  { intros p Hp. rewrite of_uint63_spec. f_equal.
    change (Uint63Axioms.to_Z (Uint63.of_Z (Z.pos p))) with (Uint63.to_Z (Uint63.of_Z (Z.pos p))).
    rewrite Uint63.of_Z_spec. apply Z.mod_small.
    change Uint63.wB with 9223372036854775808. lia. }
  destruct n as [|p|p]; cbn [Z.abs] in Hn; try lia.
  - destruct (binary_normalize_integer (Z.pos p) Hn) as (ma & u & E & Hu & Hv & Hr).
    exists ma, u. cbn [of_Z Z.abs]. rewrite Hw, E by lia.
    change (Z.pos p <? 0) with false. auto.
  - destruct (binary_normalize_integer (Z.pos p) Hn) as (ma & u & E & Hu & Hv & Hr).
    exists ma, u. cbn [of_Z Z.abs Z.opp]. rewrite opp_spec, Hw, E by lia.
    change (Z.neg p <? 0) with true. auto.
Qed.

(** [Math.round ((n / 100) * 100)] finds [n] again. *)
Lemma of_Z_hundredths_round n :
  1 <= Z.abs n < 2 ^ 49 ->
  roundedInteger (of_Z n / 100 * 100) = Some n.
Proof.
  intros Hn.
  assert (C49 : 2 ^ 49 = 562949953421312) by reflexivity.
  assert (C53 : 2 ^ 53 = 9007199254740992) by reflexivity.
  destruct (Prim2SF_of_Z n ltac:(lia)) as (ma & u & E & Hu & Hv & Hr).
  destruct (hundredfold_of_hundredth (n <? 0) (Z.abs n) ma u Hn Hv Hr Hu)
    as (mw & ew & Hm & Hew & Hround).
  unfold roundedInteger.
  rewrite mul_spec, div_spec, Prim2SF_hundred, E, Hm.
  replace (0 <=? ew) with false by (symmetry; apply Z.leb_gt; lia).
  f_equal. rewrite Hround. destruct (Z.ltb_spec n 0); lia.
Qed.

Lemma valid_mantissa_bound s m e :
  valid_binary (S754_finite s m e) = true -> Z.pos m < 2 ^ 53.
Proof.
  cbn [SpecFloat.valid_binary]. unfold bounded, canonical_mantissa.
  intros H. apply andb_prop in H. destruct H as [C _]. apply Z.eqb_eq in C.
  pose proof (digits2_pos_bounds m) as [_ B].
  assert (Z.pos (digits2_pos m) <= 53)
    by (unfold fexp, SpecFloat.emin, prec, emax in C; lia).
  assert (2 ^ Z.pos (digits2_pos m) <= 2 ^ 53) by (apply Z.pow_le_mono_r; lia).
  lia.
Qed.

Lemma roundedInteger_bound v n :
  roundedInteger v = Some n -> Z.abs n < 2 ^ 53.
Proof.
  unfold roundedInteger.
  pose proof (Prim2SF_valid v) as V.
  destruct (Prim2SF v) as [s|s| |s m e]; try discriminate.
  apply valid_mantissa_bound in V.
  destruct (Z.leb_spec 0 e) as [|He]; [discriminate|].
  intros [= <-].
  assert (C53 : 2 ^ 53 = 9007199254740992) by reflexivity.
  set (t := - e). assert (Ht : 1 <= t) by (unfold t; lia).
  assert (PT : 0 < 2 ^ t) by (apply Z.pow_pos_nonneg; lia).
  assert (T2 : 2 <= 2 ^ t).
  { change 2 with (2 ^ 1) at 1. apply Z.pow_le_mono_r; lia. }
  rewrite Z.pow_add_r by lia. change (2 ^ 1) with 2.
  set (T := 2 ^ t) in *.
  assert (Hm : Z.pos m < 9007199254740992) by lia.
  clearbody T. clear C53 V PT Ht t He.
  destruct s.
  - rewrite <- Pos2Z.opp_pos. Z.div_mod_to_equations. nia.
  - Z.div_mod_to_equations. nia.
Qed.

Lemma SFltb_finite m1 e1 m2 e2 :
  SFltb (S754_finite false m1 e1) (S754_finite false m2 e2) = true ->
  e1 < e2 \/ (e1 = e2 /\ Z.pos m1 < Z.pos m2).
Proof.
  unfold SFltb. cbn [SFcompare].
  destruct (Z.compare_spec e1 e2) as [E|L|G]; [|auto|discriminate].
  change (Pos.compare_cont Eq m1 m2) with (Pos.compare m1 m2).
  destruct (Pos.compare_spec m1 m2) as [| |]; try discriminate.
  intros _. right. split; [assumption|]. apply Pos2Z.pos_lt_pos. assumption.
Qed.

Lemma Prim2SF_two_49 :
  Prim2SF 562949953421312 = S754_finite false 4503599627370496 (-3).
Proof. vm_compute. reflexivity. Qed.

(** What [Math.round] has done when its result is below [2^49] in
    magnitude. *)
Lemma Math_round_small v :
  (abs (Math_round v) <? 562949953421312)%float = true ->
  (exists s, Prim2SF v = S754_zero s) \/
  (exists n, roundedInteger v = Some n /\ Z.abs n < 2 ^ 49).
Proof.
  assert (C49 : 2 ^ 49 = 562949953421312) by reflexivity.
  assert (C52 : 2 ^ 52 = 4503599627370496) by reflexivity.
  assert (C53 : 2 ^ 53 = 9007199254740992) by reflexivity.
  pose proof Prim2SF_two_49 as Hc.
  set (c := 562949953421312%float) in *. clearbody c.
  rewrite ltb_spec, abs_spec, Hc. clear Hc c. unfold Math_round.
  destruct (roundedInteger v) as [n|] eqn:Hn.
  - intros Hlt. right. exists n. split; [reflexivity|].
    destruct (Z.eqb_spec n 0) as [->|Hn0]; [lia|].
    pose proof (roundedInteger_bound v n Hn) as Hb.
    destruct (Prim2SF_of_Z n ltac:(lia)) as (ma & u & E & Hu & Hv & Hr).
    rewrite E in Hlt. cbn [SFabs] in Hlt.
    apply SFltb_finite in Hlt. destruct Hlt as [Lu|[_ Hlt]]; [|lia].
    assert (Hu4 : 4 <= u) by lia.
    assert (2 ^ 4 <= 2 ^ u) by (apply Z.pow_le_mono_r; lia).
    change (2 ^ 4) with 16 in *.
    assert (Z.abs n * 16 <= Z.abs n * 2 ^ u) by (apply Z.mul_le_mono_nonneg_l; lia).
    lia.
  - pose proof (Prim2SF_valid v) as V.
    unfold roundedInteger in Hn.
    destruct (Prim2SF v) as [s|s| |s m e]; cbn [SFabs].
    + intros _. left. exists s. reflexivity.
    + intros Hlt. discriminate.
    + intros Hlt. discriminate.
    + destruct (Z.leb_spec 0 e) as [He|He]; [|discriminate].
      intros Hlt. apply SFltb_finite in Hlt. lia.
Qed.

(** [roundToTwoDecimalPlaces] leaves the hundredth part of an integer below
    [2^49] as it is. *)
Lemma round_hundredths n :
  Z.abs n < 2 ^ 49 -> n <> 0 ->
  roundToTwoDecimalPlaces (of_Z n / 100) = (of_Z n / 100)%float.
Proof.
  intros Hn Hn0. unfold roundToTwoDecimalPlaces, Math_round.
  rewrite of_Z_hundredths_round by lia.
  rewrite (proj2 (Z.eqb_neq n 0) Hn0). reflexivity.
Qed.

(** C10, as amended. Rounding to two decimals is idempotent at every [x]
    whose rounded hundredfold [Math.round (x * 100)] is below [2^49] in
    magnitude. *)
Theorem round_idempotent_bounded x :
  (abs (Math_round (x * 100)) <? 562949953421312)%float = true ->
  roundToTwoDecimalPlaces (roundToTwoDecimalPlaces x) = roundToTwoDecimalPlaces x.
Proof.
  intros H. apply Math_round_small in H.
  unfold roundToTwoDecimalPlaces at 2 3. unfold Math_round.
  destruct H as [[s Hz]|(n & Hn & Hb)].
  - unfold roundedInteger. rewrite Hz.
    assert (Ev : (x * 100)%float = SF2Prim (S754_zero s))
      by (rewrite <- Hz; symmetry; apply SF2Prim_Prim2SF).
    rewrite Ev. destruct s; vm_compute; reflexivity.
  - rewrite Hn. destruct (Z.eqb_spec n 0) as [->|Hn0].
    + destruct (x * 100 <? 0)%float; vm_compute; reflexivity.
    + apply round_hundredths; assumption.
Qed.

Lemma round_idempotent_bounded_witness :
  roundToTwoDecimalPlaces (roundToTwoDecimalPlaces 166.66666666666666) =
  roundToTwoDecimalPlaces 166.66666666666666.
Proof.
  apply round_idempotent_bounded. vm_compute. reflexivity.
Defined.

(** C10 fails in binary64: rounding 40736365628220.125 gives
    40736365628220.13, and rounding that gives 40736365628220.14. *)
Lemma round_not_idempotent :
  roundToTwoDecimalPlaces 40736365628220.125 = 40736365628220.13%float /\
  roundToTwoDecimalPlaces (roundToTwoDecimalPlaces 40736365628220.125)
    = 40736365628220.14%float /\
  (40736365628220.14 =? 40736365628220.13)%float = false.
Proof. vm_compute. repeat split. Qed.

(* ================================================================= *)
(** ** Facts about the calendar *)

Section CalendarFacts.

Lemma DayFromYear_succ y : DayFromYear (y + 1) = DayFromYear y + DaysInYear y.
Proof.
  unfold DayFromYear, DaysInYear.
  repeat match goal with |- context [ (?a =? ?b) ] => destruct (Z.eqb_spec a b) end; cbn [negb];
  Z.div_mod_to_equations; lia.
Qed.

Lemma YearFromDay_spec d :
  DayFromYear (YearFromDay d) <= d < DayFromYear (YearFromDay d + 1).
Proof.
  unfold YearFromDay.
  set (y := 1970 + 400 * d / 146097).
  assert (Hy : y = 1970 + 400 * d / 146097) by reflexivity. clearbody y.
  destruct (Z.ltb_spec d (DayFromYear y)) as [H1|H1].
  - replace (y - 1 + 1) with y by lia. split; [|lia].
    unfold DayFromYear in *. Z.div_mod_to_equations. lia.
  - destruct (Z.leb_spec (DayFromYear (y + 1)) d) as [H2|H2].
    + split; [lia|]. replace (y + 1 + 1) with (y + 2) by lia.
      unfold DayFromYear in *. Z.div_mod_to_equations. lia.
    + lia.
Qed.

Lemma DayFromYear_le y1 y2 : y1 <= y2 -> DayFromYear y1 <= DayFromYear y2.
Proof. unfold DayFromYear. intros. Z.div_mod_to_equations. lia. Qed.

Lemma YearFromDay_unique y d :
  DayFromYear y <= d < DayFromYear (y + 1) -> YearFromDay d = y.
Proof.
  intros H. pose proof (YearFromDay_spec d) as S.
  destruct (Z.lt_trichotomy (YearFromDay d) y) as [L|[E|G]]; [|exact E|].
  - pose proof (DayFromYear_le (YearFromDay d + 1) y ltac:(lia)). lia.
  - pose proof (DayFromYear_le (y + 1) (YearFromDay d) ltac:(lia)). lia.
Qed.

Lemma daysOfMonth_leap y :
  (if DaysInYear y =? 366 then 1 else 0) = (if isGregorianLeap y then 1 else 0).
Proof.
  unfold DaysInYear, isGregorianLeap.
  destruct (y mod 4 =? 0), (y mod 100 =? 0), (y mod 400 =? 0); reflexivity.
Qed.

Lemma isGregorianLeap_days y :
  DaysInYear y = if isGregorianLeap y then 366 else 365.
Proof.
  unfold DaysInYear, isGregorianLeap.
  destruct (y mod 4 =? 0), (y mod 100 =? 0), (y mod 400 =? 0); reflexivity.
Qed.

Lemma monthStart_succ l m :
  0 <= m <= 11 ->
  monthStart l (m + 1) = monthStart l m +
    match m with 1 => 28 + l | 3 | 5 | 8 | 10 => 30 | _ => 31 end.
Proof.
  intros H.
  assert (T : forall k v, k + 1 = v ->
            monthStart l v = monthStart l k +
              match k with 1 => 28 + l | 3 | 5 | 8 | 10 => 30 | _ => 31 end ->
            monthStart l (k + 1) = monthStart l k +
              match k with 1 => 28 + l | 3 | 5 | 8 | 10 => 30 | _ => 31 end)
    by (intros k v <-; trivial).
  each_month m
    ltac:(eapply T; [vm_compute; reflexivity|cbn [monthStart]; lia]).
Qed.

(** Civil date of a day number, as a triple. *)
Lemma MakeDay_inv y m d :
  0 <= m <= 11 -> 1 <= d <= daysOfMonth y m ->
  YearFromDay (MakeDay y m d) = y /\
  MonthFromDay (MakeDay y m d) = m /\
  DateFromDay (MakeDay y m d) = d.
Proof.
  intros Hm Hd.
  assert (Hy : YearFromDay (MakeDay y m d) = y).
  { apply YearFromDay_unique. rewrite DayFromYear_succ.
    unfold MakeDay. rewrite Z.div_small, Z.mod_small, Z.add_0_r by lia.
    rewrite daysOfMonth_leap. rewrite isGregorianLeap_days.
    unfold daysOfMonth in Hd.
    each_month m ltac:(destruct (isGregorianLeap y); cbn in *; lia). }
  unfold DateFromDay, MonthFromDay, DayWithinYear, InLeapYear. rewrite Hy.
  split; [reflexivity|].
  unfold MakeDay. rewrite Z.div_small, Z.mod_small, Z.add_0_r by lia.
  rewrite daysOfMonth_leap.
  unfold daysOfMonth in Hd.
  each_month m
    ltac:(destruct (isGregorianLeap y); cbn [monthStart] in *; split_ltb;
          cbn [monthStart]; split; lia).
Qed.

Lemma MakeDay_carry y M d :
  MakeDay y M d = MakeDay (y + M / 12) (M mod 12) d.
Proof.
  unfold MakeDay.
  rewrite Z.mod_mod by lia.
  replace (M mod 12 / 12) with 0 by (symmetry; apply Z.div_small, Z.mod_pos_bound; lia).
  rewrite Z.add_0_r. reflexivity.
Qed.

Lemma MakeDay_zero y m :
  0 <= m <= 11 ->
  MakeDay y (m + 1) 0 = MakeDay y m (daysOfMonth y m).
Proof.
  intros Hm.
  destruct (Z.eq_dec m 11) as [->|Hne].
  - unfold MakeDay. change ((11 + 1) / 12) with 1. change ((11 + 1) mod 12) with 0.
    change (11 / 12) with 0. change (11 mod 12) with 11.
    replace (y + 0) with y by lia.
    cbn [monthStart].
    rewrite DayFromYear_succ, daysOfMonth_leap, isGregorianLeap_days.
    unfold daysOfMonth.
    destruct (isGregorianLeap y); lia.
  - unfold MakeDay.
    rewrite !Z.div_small, !Z.mod_small by lia.
    replace (y + 0) with y by lia.
    rewrite monthStart_succ by lia. rewrite daysOfMonth_leap.
    unfold daysOfMonth.
    each_month m ltac:(destruct (isGregorianLeap y); lia).
Qed.

Lemma daysOfMonth_pos y m : 28 <= daysOfMonth y m <= 31.
Proof.
  unfold daysOfMonth.
  destruct (isGregorianLeap y);
    (destruct m as [|p|p]; try lia; repeat (destruct p as [p|p|]; try lia)).
Qed.

Lemma getDaysInMonth_spec year month :
  getDaysInMonth year month =
  daysOfMonth (carriedYear year month) (carriedMonth month).
Proof.
  unfold getDaysInMonth, newDate, getDate, carriedYear, carriedMonth. cbn [localDay].
  assert (Hm : 0 <= month mod 12 <= 11) by (pose proof (Z.mod_pos_bound month 12); lia).
  assert (E : MakeDay (fullYearOf year) (month + 1) 0 =
              MakeDay (fullYearOf year + month / 12) (month mod 12 + 1) 0).
  { unfold MakeDay. f_equal. f_equal.
    assert (E1 : (month + 1) / 12 = month / 12 + (month mod 12 + 1) / 12)
      by (Z.div_mod_to_equations; lia).
    assert (E2 : (month + 1) mod 12 = (month mod 12 + 1) mod 12)
      by (Z.div_mod_to_equations; lia).
    rewrite E1, E2, Z.add_assoc. reflexivity. }
  rewrite E, MakeDay_zero by assumption.
  apply MakeDay_inv; [assumption|].
  pose proof (daysOfMonth_pos (fullYearOf year + month / 12) (month mod 12)). lia.
Qed.

Lemma correctRentDueDate_spec year month day :
  1 <= day ->
  let t := correctRentDueDate year month day in
  getFullYear t = carriedYear year month /\
  getMonth t = carriedMonth month /\
  getDate t = Z.min day (daysOfMonth (carriedYear year month) (carriedMonth month)) /\
  localDay t = MakeDay (carriedYear year month) (carriedMonth month)
                 (Z.min day (daysOfMonth (carriedYear year month) (carriedMonth month))).
Proof.
  intros Hd t. subst t. unfold correctRentDueDate.
  rewrite getDaysInMonth_spec.
  set (Y := carriedYear year month). set (M := carriedMonth month).
  assert (Hm : 0 <= M <= 11) by (pose proof (Z.mod_pos_bound month 12); unfold M, carriedMonth; lia).
  pose proof (daysOfMonth_pos Y M) as Hdim.
  assert (G : forall dd, 1 <= dd <= daysOfMonth Y M ->
     getFullYear (newDate year month dd) = Y /\ getMonth (newDate year month dd) = M /\
     getDate (newDate year month dd) = dd /\ localDay (newDate year month dd) = MakeDay Y M dd).
  { intros dd Hdd. unfold getFullYear, getMonth, getDate, newDate. cbn [localDay].
    rewrite MakeDay_carry. fold (carriedYear year month) (carriedMonth month). fold Y M.
    destruct (MakeDay_inv Y M dd Hm Hdd) as (A & B & C). auto. }
  destruct (Z.gtb_spec day (daysOfMonth Y M)).
  - rewrite Z.min_r by lia. apply G. lia.
  - rewrite Z.min_l by lia. apply G. lia.
Qed.

Lemma MakeDay_small y m d :
  0 <= m <= 11 ->
  MakeDay y m d =
  DayFromYear y + monthStart (if isGregorianLeap y then 1 else 0) m + d - 1.
Proof.
  intros. unfold MakeDay.
  rewrite Z.div_small, Z.mod_small by lia.
  replace (y + 0) with y by lia. rewrite daysOfMonth_leap. reflexivity.
Qed.

Lemma MonthFromDay_range d : 0 <= MonthFromDay d <= 11.
Proof.
  unfold MonthFromDay.
  repeat match goal with |- context [ ?a <? ?b ] => destruct (a <? b) end; lia.
Qed.

(** Every day number is the day of a civil date. *)
Lemma civil_of_day d :
  1 <= DateFromDay d <= daysOfMonth (YearFromDay d) (MonthFromDay d) /\
  d = MakeDay (YearFromDay d) (MonthFromDay d) (DateFromDay d).
Proof.
  rewrite MakeDay_small by apply MonthFromDay_range.
  pose proof (YearFromDay_spec d) as S. rewrite DayFromYear_succ in S.
  unfold DateFromDay, MonthFromDay, DayWithinYear, InLeapYear, daysOfMonth.
  rewrite daysOfMonth_leap. rewrite isGregorianLeap_days in S.
  set (y := YearFromDay d) in *.
  destruct (isGregorianLeap y); split_ltb; cbn [monthStart]; lia.
Qed.

Lemma YearFromDay_mono d1 d2 : d1 <= d2 -> YearFromDay d1 <= YearFromDay d2.
Proof.
  intros H. pose proof (YearFromDay_spec d1) as [L1 _].
  pose proof (YearFromDay_spec d2) as [_ U2].
  destruct (Z.le_gt_cases (YearFromDay d1) (YearFromDay d2)) as [|G]; [assumption|].
  pose proof (DayFromYear_le (YearFromDay d2 + 1) (YearFromDay d1) ltac:(lia)). lia.
Qed.

Lemma MonthFromDay_mono d1 d2 :
  d1 <= d2 -> YearFromDay d1 = YearFromDay d2 ->
  MonthFromDay d1 <= MonthFromDay d2.
Proof.
  intros H Hy. unfold MonthFromDay, DayWithinYear, InLeapYear. rewrite Hy.
  destruct (DaysInYear (YearFromDay d2) =? 366); split_ltb; lia.
Qed.

End CalendarFacts.

(* ================================================================= *)
(** ** The loop of the schedule builder *)

Lemma lastRecord_snoc rs r : lastRecord (rs ++ [r]) = Some r.
Proof.
  unfold lastRecord. rewrite length_app. cbn [length].
  replace (length rs + 1 - 1)%nat with (length rs) by lia.
  rewrite nth_error_app2 by lia. rewrite Nat.sub_diag. reflexivity.
Qed.

(** A property of the loop state that every iteration preserves holds when
    the loop exits, and then the loop condition is false. *)
Section LoopInvariant.
Variable c : Contract.
Variable P : Z -> MonthlyRentRecords -> Prop.
Hypothesis step : forall month rs lastRec r,
  P month rs ->
  lastRecord rs = Some lastRec ->
  month <= calculateMonthDifference (windowEndDate c) (rentDueDate lastRec) ->
  appended c month rs lastRec r ->
  P (month + 1) (rs ++ [r]).

Lemma rentLoop_invariant fuel : forall month rs out,
  P month rs ->
  rentLoop fuel c month rs = Some (Normal out) ->
  exists month' lastRec,
    P month' out /\ lastRecord out = Some lastRec /\
    calculateMonthDifference (windowEndDate c) (rentDueDate lastRec) < month'.
Proof.
  induction fuel as [|fuel IH]; intros month rs out HP Hrun; [discriminate|].
  cbn [rentLoop] in Hrun.
  destruct (lastRecord rs) as [lastRec|] eqn:Hlast; [|discriminate].
  destruct (Z.leb_spec month
    (calculateMonthDifference (windowEndDate c) (rentDueDate lastRec))) as [Hle|Hgt].
  - destruct (rem_is_zero month (rentRateChangeFrequency c)) eqn:Hrem.
    + eapply IH; [|exact Hrun].
      eapply step; eauto. now constructor.
    + destruct (recordAt rs month) as [r|] eqn:Hat; [|discriminate].
      eapply IH; [|exact Hrun].
      eapply step; eauto. now econstructor.
  - injection Hrun as <-. exists month, lastRec. auto.
Qed.
End LoopInvariant.

(** The loop ends: the counter grows by one at each iteration and the loop
    condition compares it with a month difference taken from one of at most
    thirteen dates. *)
Section Termination.
Variable c : Contract.
Variable first : Date.

Lemma monthBound_ge t :
  In t (first :: dueDateCandidates c) ->
  calculateMonthDifference (windowEndDate c) t <= monthBound c first.
Proof.
  unfold monthBound. generalize (dueDateCandidates c) as l.
  induction l as [|a l IH]; cbn [map fold_right In].
  - intros [<-|[]]. lia.
  - intros [H|[H|H]].
    + specialize (IH (or_introl H)). lia.
    + subst. lia.
    + specialize (IH (or_intror H)). lia.
Qed.

Lemma candidate_next t :
  In (correctRentDueDate (getFullYear (leaseStartDate c)) (getMonth t + 1)
        (dayOfMonthRentDue c))
     (dueDateCandidates c).
Proof.
  unfold dueDateCandidates.
  apply (in_map (fun k => correctRentDueDate _ k _)).
  pose proof (MonthFromDay_range (localDay t)) as R. unfold getMonth.
  cbn [In]. lia.
Qed.

Lemma rentLoop_fuel fuel : forall month rs lastRec,
  lastRecord rs = Some lastRec ->
  In (rentDueDate lastRec) (first :: dueDateCandidates c) ->
  (Z.to_nat (monthBound c first - month + 1) < fuel)%nat ->
  rentLoop fuel c month rs <> None.
Proof.
  induction fuel as [|fuel IH]; intros month rs lastRec Hlast Hin Hfuel; [lia|].
  cbn [rentLoop]. rewrite Hlast.
  pose proof (monthBound_ge _ Hin) as Hb.
  destruct (Z.leb_spec month
    (calculateMonthDifference (windowEndDate c) (rentDueDate lastRec))) as [Hle|Hgt];
    [|discriminate].
  assert (Hnext : forall r,
    rentDueDate r = correctRentDueDate (getFullYear (leaseStartDate c))
                      (getMonth (rentDueDate lastRec) + 1) (dayOfMonthRentDue c) ->
    rentLoop fuel c (month + 1) (rs ++ [r]) <> None).
  { intros r Hr. apply (IH _ _ r).
    - apply lastRecord_snoc.
    - right. rewrite Hr. apply candidate_next.
    - lia. }
  destruct (rem_is_zero month (rentRateChangeFrequency c)).
  - apply Hnext. reflexivity.
  - destruct (recordAt rs month); [|discriminate]. apply Hnext. reflexivity.
Qed.
End Termination.

(** X1. [calculateMonthlyRent] always completes: whatever the contract, the
    loop ends, and the call returns a sequence or throws. *)
Theorem calculateMonthlyRent_terminates c :
  exists r, calculateMonthlyRent c = Some r.
Proof.
  unfold calculateMonthlyRent.
  destruct (lastRecord _) as [lastRec|] eqn:Hlast; [|eauto].
  match goal with |- exists r, ?t = Some r => destruct t as [r|] eqn:Hrun end; [eauto|].
  exfalso. revert Hrun.
  eapply rentLoop_fuel; [exact Hlast|left; reflexivity|lia].
Qed.

(* ================================================================= *)
(** ** The helpers *)

(** [0 <= r] excludes [r < 0], also at the zeros and at [NaN]. *)
Lemma leb_zero_not_ltb (r : float) :
  (0 <=? r)%float = true -> (r <? 0)%float = false.
Proof.
  rewrite leb_spec, ltb_spec. change (Prim2SF 0) with (S754_zero false).
  unfold SFleb, SFltb.
  destruct (Prim2SF r) as [s|[|]| |[|] m e]; cbn; congruence.
Qed.

Lemma calculateFirstMonthRent_vacancy d L b r :
  Forall (fun x => vacancy x = isVacant r) (calculateFirstMonthRent d L b r).
Proof.
  unfold calculateFirstMonthRent.
  destruct (d =? getDate L); [|destruct (d <? getDate L)];
    repeat constructor.
Qed.

Lemma calculateMonthlyRent_vacancy c rs :
  calculateMonthlyRent c = Some (Normal rs) ->
  Forall (fun x => vacancy x = isVacant (rentChangeRate c)) rs.
Proof.
  unfold calculateMonthlyRent.
  destruct (lastRecord _) as [lastRec|]; [|discriminate].
  intros Hrun.
  eapply (rentLoop_invariant c
            (fun _ rs => Forall (fun x => vacancy x = isVacant (rentChangeRate c)) rs))
    in Hrun.
  - destruct Hrun as (? & ? & H & _). exact H.
  - intros month rs0 l r HP _ _ Happ. apply Forall_app. split; [exact HP|].
    constructor; [|constructor]. destruct Happ; reflexivity.
  - apply calculateFirstMonthRent_vacancy.
Qed.

(** C8. Every record that [calculateMonthlyRent] returns is flagged vacant
    when the rent change rate is negative, and not vacant when the rate is
    zero or positive. *)
Theorem vacancy_flag c rs :
  calculateMonthlyRent c = Some (Normal rs) ->
  ((rentChangeRate c <? 0)%float = true -> Forall (fun x => vacancy x = true) rs) /\
  ((0 <=? rentChangeRate c)%float = true -> Forall (fun x => vacancy x = false) rs).
Proof.
  intros Hrun. apply calculateMonthlyRent_vacancy in Hrun.
  split; intros Hr.
  - eapply Forall_impl; [|exact Hrun]. cbn. intros a ->. exact Hr.
  - apply leb_zero_not_ltb in Hr.
    eapply Forall_impl; [|exact Hrun]. cbn. intros a ->. exact Hr.
Qed.

Lemma vacancy_flag_witness :
  Forall (fun x => vacancy x = true)
    [mkRecord true 1000 (newDate 2024 0 15);
     mkRecord true 950 (newDate 2024 1 15);
     mkRecord true 902.5 (newDate 2024 2 15)].
Proof.
  apply (vacancy_flag vacantContract).
  - vm_compute. reflexivity.
  - vm_compute. reflexivity.
Defined.

(** C5, as amended. [calculateMonthDifference] returns the sentinel -1 when
    the year of its second date (the window start) exceeds the year of its
    first date (the window end). *)
Theorem calculateMonthDifference_sentinel a b :
  getFullYear a < getFullYear b -> calculateMonthDifference a b = -1.
Proof.
  intros H. unfold calculateMonthDifference.
  destruct (Z.gtb_spec (getFullYear b) (getFullYear a)); [reflexivity|lia].
Qed.

(** C7, as amended. For a zero-based month and a day of the month,
    [correctRentDueDate] returns the date of that month, in the year that
    [Date] reads from the year argument ([fullYearOf]: 1900 + year for a
    year from 0 to 99, the year itself otherwise), with the desired day
    when the month has that many days, and the last day of the month
    otherwise: day 30 for day 31 of a 30-day month, and for day 30 of
    February day 29 when that year is a leap year and day 28 when it is
    not. *)
Theorem correctRentDueDate_clamps year month day :
  0 <= month <= 11 -> 1 <= day ->
  let t := correctRentDueDate year month day in
  let n := daysOfMonth (fullYearOf year) month in
  getFullYear t = fullYearOf year /\ getMonth t = month /\
  getDate t = (if day <=? n then day else n) /\
  (n = 30 -> day = 31 -> getDate t = 30) /\
  (month = 1 -> day = 30 ->
   getDate t = if isGregorianLeap (fullYearOf year) then 29 else 28).
Proof.
  intros Hm Hd t n.
  destruct (correctRentDueDate_spec year month day Hd) as (Y & M & D & _).
  fold t in Y, M, D.
  unfold carriedYear, carriedMonth in *.
  rewrite Z.div_small, Z.mod_small, Z.add_0_r in * by lia. fold n in D.
  assert (D' : getDate t = if day <=? n then day else n).
  { rewrite D. destruct (Z.leb_spec day n); lia. }
  repeat split; try assumption.
  - intros Hn ->. rewrite D', Hn. reflexivity.
  - intros -> ->. rewrite D'. subst n. unfold daysOfMonth.
    destruct (isGregorianLeap (fullYearOf year)); reflexivity.
Qed.

(** The proration factor [(d - s) / 30] of a due day after the lease-start
    day is not zero, so [0 - factor] is its opposite. *)
Lemma proration_nonzero k :
  1 <= k <= 30 -> Prim2SF (of_Z k / 30) <> S754_zero false.
Proof.
  intros H.
  assert (C : k = 1 \/ k = 2 \/ k = 3 \/ k = 4 \/ k = 5 \/ k = 6 \/ k = 7 \/
              k = 8 \/ k = 9 \/ k = 10 \/ k = 11 \/ k = 12 \/ k = 13 \/ k = 14 \/
              k = 15 \/ k = 16 \/ k = 17 \/ k = 18 \/ k = 19 \/ k = 20 \/
              k = 21 \/ k = 22 \/ k = 23 \/ k = 24 \/ k = 25 \/ k = 26 \/
              k = 27 \/ k = 28 \/ k = 29 \/ k = 30) by lia.
  repeat (destruct C as [->|C]; [vm_compute; discriminate|]).
  subst. vm_compute. discriminate.
Qed.

Lemma proration_after (b q : float) :
  Prim2SF q <> S754_zero false ->
  (b * (0 - q) * -1)%float = (b * q)%float.
Proof.
  intros H. rewrite sub_zero_l by assumption.
  rewrite mul_opp_r, mul_minus_one_r, opp_opp. reflexivity.
Qed.

(** C6. The three cases of [calculateFirstMonthRent], for a due day [d]
    and a lease that starts on day [s] of its month: one record of the base
    rent at the corrected due date when [d = s]; one record of
    [round2 (base * (1 - (d - s) / 30))] at the corrected due date when
    [d < s]; and when [s < d] a record of [round2 (base * ((d - s) / 30))]
    dated at the lease start, then a record of the base rent, not rounded,
    at the corrected due date. *)
Theorem calculateFirstMonthRent_cases d L base rate :
  1 <= d <= 31 ->
  let s := getDate L in
  let due := correctRentDueDate (getFullYear L) (getMonth L) d in
  let v := isVacant rate in
  (d = s ->
   calculateFirstMonthRent d L base rate = [mkRecord v base due]) /\
  (d < s ->
   calculateFirstMonthRent d L base rate =
   [mkRecord v (roundToTwoDecimalPlaces (base * (1 - of_Z (d - s) / 30))) due]) /\
  (s < d ->
   calculateFirstMonthRent d L base rate =
   [mkRecord v (roundToTwoDecimalPlaces (base * (of_Z (d - s) / 30))) L;
    mkRecord v base due]).
Proof.
  intros Hd s due v. unfold calculateFirstMonthRent. fold s due v.
  repeat split; intros H.
  - rewrite (proj2 (Z.eqb_eq d s) H). reflexivity.
  - rewrite (proj2 (Z.eqb_neq d s)) by lia.
    rewrite (proj2 (Z.ltb_lt d s) H). cbn [of_bool].
    rewrite mul_one_r. reflexivity.
  - rewrite (proj2 (Z.eqb_neq d s)) by lia.
    rewrite (proj2 (Z.ltb_ge d s)) by lia. cbn [of_bool].
    rewrite proration_after; [reflexivity|].
    apply proration_nonzero.
    pose proof (civil_of_day (localDay L)) as [R _]. fold (getDate L) in R. fold s in R. lia.
Qed.

Lemma calculateFirstMonthRent_cases_witness :
  calculateFirstMonthRent 15 (newDate 2024 0 10) 1000 0.05 =
  [mkRecord false 166.67 (newDate 2024 0 10);
   mkRecord false 1000 (newDate 2024 0 15)].
Proof.
  pose proof (calculateFirstMonthRent_cases 15 (newDate 2024 0 10) 1000 0.05
                ltac:(lia)) as (_ & _ & H).
  rewrite H by (vm_compute; reflexivity).
  vm_compute. reflexivity.
Defined.

(* ================================================================= *)
(** ** Chronology of the schedule *)

Lemma lastRecord_app pre body :
  body <> [] -> lastRecord (pre ++ body) = lastRecord body.
Proof.
  intros H. destruct (exists_last H) as (b & r & ->).
  rewrite app_assoc, !lastRecord_snoc. reflexivity.
Qed.

Lemma adjacent_snoc R rs l r :
  adjacent R rs -> lastRecord rs = Some l ->
  R (rentDueDate l) (rentDueDate r) -> adjacent R (rs ++ [r]).
Proof.
  induction rs as [|a [|b rs] IH]; intros HA HL HR.
  - discriminate.
  - cbn in HL. injection HL as ->. cbn. auto.
  - destruct HA as [Hab HA]. split; [exact Hab|].
    apply IH; [exact HA| |exact HR].
    rewrite <- HL. symmetry. apply (lastRecord_app [a]). discriminate.
Qed.

Lemma MakeDay_date y m d : MakeDay y m d = MakeDay y m 0 + d.
Proof. unfold MakeDay. lia. Qed.

Lemma MakeDay_next_month y m d d' :
  0 <= m <= 10 -> d <= daysOfMonth y m -> 1 <= d' ->
  MakeDay y m d < MakeDay y (m + 1) d'.
Proof.
  intros Hm Hd Hd'.
  rewrite (MakeDay_date y (m + 1)), MakeDay_zero by lia.
  rewrite (MakeDay_date y m d), (MakeDay_date y m (daysOfMonth y m)). lia.
Qed.

Lemma fullYearOf_cases y :
  fullYearOf y = y \/ (0 <= y <= 99 /\ fullYearOf y = 1900 + y).
Proof.
  unfold fullYearOf.
  destruct (Z.leb_spec 0 y), (Z.leb_spec y 99); cbn; lia.
Qed.

(** The first-month records: at most one prorated record dated at the lease
    start, then the record of the first due date. *)
Lemma calculateFirstMonthRent_shape d L b r :
  exists pre amount,
    calculateFirstMonthRent d L b r =
      pre ++ [mkRecord (isVacant r) amount
                (correctRentDueDate (getFullYear L) (getMonth L) d)] /\
    (pre = [] \/
     exists a, d > getDate L /\ pre = [mkRecord (isVacant r) a L]).
Proof.
  unfold calculateFirstMonthRent.
  destruct (Z.eqb_spec d (getDate L)) as [E|NE].
  - exists [], b. auto.
  - destruct (Z.ltb_spec d (getDate L)).
    + exists []. eexists. split; [reflexivity|auto].
    + eexists [_], b. split; [reflexivity|]. right. eexists. split; [lia|reflexivity].
Qed.

Section Chronology.
Variable c : Contract.
Hypothesis due_day_positive : 1 <= dayOfMonthRentDue c.
Hypothesis window_in_lease_year :
  getFullYear (windowEndDate c) = getFullYear (leaseStartDate c).

Lemma inLeaseYear_step pre f0 month rs lastRec r :
  fullYearOf (getFullYear (leaseStartDate c)) = getFullYear (leaseStartDate c) ->
  inLeaseYear c pre f0 month rs ->
  lastRecord rs = Some lastRec ->
  month <= calculateMonthDifference (windowEndDate c) (rentDueDate lastRec) ->
  appended c month rs lastRec r ->
  inLeaseYear c pre f0 (month + 1) (rs ++ [r]).
Proof.
  intros HY (tail & body & l & dd & Hb & -> & Hl & Hc & Hm & Hy & Hk & Hday & Hdd)
         Hlast Hle Happ.
  assert (Hne : body <> []) by (intros ->; discriminate).
  rewrite lastRecord_app, Hl in Hlast by assumption. injection Hlast as <-.
  set (Y := getFullYear (leaseStartDate c)) in *.
  assert (Hr : rentDueDate r = correctRentDueDate Y (month + 1) (dayOfMonthRentDue c)).
  { destruct Happ; cbn [rentDueDate]; rewrite Hk; reflexivity. }
  clear Happ.
  pose proof (MonthFromDay_range (localDay (rentDueDate l))) as Rk.
  pose proof (MonthFromDay_range (localDay (windowEndDate c))) as RE.
  fold (getMonth (rentDueDate l)) in Rk. fold (getMonth (windowEndDate c)) in RE.
  rewrite Hk in Rk.
  unfold calculateMonthDifference in Hle.
  rewrite Hy, window_in_lease_year in Hle. fold Y in Hle.
  rewrite Z.gtb_ltb, Z.ltb_irrefl, Z.eqb_refl, Hk in Hle.
  destruct (correctRentDueDate_spec Y (month + 1) (dayOfMonthRentDue c)
              due_day_positive) as (SY & SM & _ & SD).
  unfold carriedYear, carriedMonth in SY, SM, SD.
  rewrite HY, Z.div_small, Z.mod_small, Z.add_0_r in * by lia.
  rewrite <- Hr in SY, SM, SD.
  pose proof (daysOfMonth_pos Y (month + 1)) as Hdim.
  exists (tail ++ [r]), (body ++ [r]), r,
    (Z.min (dayOfMonthRentDue c) (daysOfMonth Y (month + 1))).
  repeat split.
  - rewrite Hb. reflexivity.
  - rewrite app_assoc. reflexivity.
  - apply lastRecord_snoc.
  - eapply adjacent_snoc; [exact Hc|exact Hl|].
    rewrite SD, Hday. apply Z.lt_le_incl, MakeDay_next_month; lia.
  - eapply adjacent_snoc; [exact Hm|exact Hl|].
    unfold monthIndex. rewrite SY, SM, Hy, Hk. lia.
  - exact SY.
  - exact SM.
  - exact SD.
  - apply Z.le_min_r.
Qed.

Lemma lease_start_before_due :
  getDate (leaseStartDate c) < dayOfMonthRentDue c ->
  localDay (leaseStartDate c) <=
  localDay (correctRentDueDate (getFullYear (leaseStartDate c))
              (getMonth (leaseStartDate c)) (dayOfMonthRentDue c)).
Proof.
  intros Hlt.
  set (L := leaseStartDate c) in *. set (Y := getFullYear L).
  pose proof (MonthFromDay_range (localDay L)) as Rm. fold (getMonth L) in Rm.
  destruct (civil_of_day (localDay L)) as [Rd EL].
  fold (getFullYear L) (getMonth L) (getDate L) in Rd, EL. fold Y in Rd, EL.
  destruct (correctRentDueDate_spec Y (getMonth L) (dayOfMonthRentDue c)
              due_day_positive) as (_ & _ & _ & SD).
  unfold carriedYear, carriedMonth in SD.
  rewrite Z.div_small, Z.mod_small, Z.add_0_r in SD by lia.
  rewrite SD, EL at 1.
  destruct (fullYearOf_cases Y) as [->|[RY ->]].
  - rewrite (MakeDay_date Y (getMonth L) (getDate L)), (MakeDay_date Y (getMonth L) (Z.min _ _)).
    lia.
  - rewrite <- EL. rewrite MakeDay_small by lia.
    pose proof (YearFromDay_spec (localDay L)) as [_ HL].
    fold (getFullYear L) in HL. fold Y in HL.
    pose proof (DayFromYear_le (Y + 1) (1900 + Y) ltac:(lia)) as Hmono.
    pose proof (daysOfMonth_pos (1900 + Y) (getMonth L)).
    assert (Hms : forall l m, 0 <= m <= 11 -> 0 <= l -> 0 <= monthStart l m).
    { intros l m Hm Hl. each_month m ltac:(cbn [monthStart]; lia). }
    pose proof (Hms (if isGregorianLeap (1900 + Y) then 1 else 0) (getMonth L) Rm
                  ltac:(destruct (isGregorianLeap (1900 + Y)); lia)).
    lia.
Qed.

(** X29. For a due day of at least 1 and a window that ends in the
    lease-start year, the records returned are the first-month records,
    then one record per consecutive month, and the due dates of
    consecutive records never decrease. *)
Theorem schedule_chronological rs :
  calculateMonthlyRent c = Some (Normal rs) ->
  let first :=
    calculateFirstMonthRent (dayOfMonthRentDue c) (leaseStartDate c)
      (baseMonthlyRent c) (rentChangeRate c) in
  firstn (length first) rs = first /\
  chronological rs /\
  consecutiveMonths (skipn (length first - 1) rs).
Proof.
  intros Hrun first. unfold calculateMonthlyRent in Hrun. fold first in Hrun.
  destruct (calculateFirstMonthRent_shape (dayOfMonthRentDue c) (leaseStartDate c)
              (baseMonthlyRent c) (rentChangeRate c)) as (pre & amount & Hfirst & Hpre).
  fold first in Hfirst.
  set (L := leaseStartDate c) in *. set (Y := getFullYear L) in *.
  set (f0 := mkRecord (isVacant (rentChangeRate c)) amount
               (correctRentDueDate Y (getMonth L) (dayOfMonthRentDue c))) in *.
  rewrite Hfirst, lastRecord_snoc in Hrun.
  pose proof (MonthFromDay_range (localDay L)) as Rm. fold (getMonth L) in Rm.
  destruct (correctRentDueDate_spec Y (getMonth L) (dayOfMonthRentDue c)
              due_day_positive) as (SY & SM & _ & SD).
  unfold carriedYear, carriedMonth in SY, SM, SD.
  rewrite Z.div_small, Z.add_0_r in SY, SD by lia.
  rewrite Z.mod_small in SM, SD by lia.
  assert (Hlen : (length first - 1)%nat = length pre)
    by (rewrite Hfirst, length_app; cbn; lia).
  assert (Hlen' : length first = (length pre + 1)%nat)
    by (rewrite Hfirst, length_app; cbn; lia).
  assert (Hseed : chronological (pre ++ [f0])).
  { destruct Hpre as [->|(a & Hgt & ->)]; [exact I|].
    split; [|exact I]. cbn [rentDueDate]. apply lease_start_before_due.
    change (getDate L < dayOfMonthRentDue c). lia. }
  change (rentDueDate f0)
    with (correctRentDueDate Y (getMonth L) (dayOfMonthRentDue c)) in Hrun.
  rewrite SM in Hrun.
  destruct (fullYearOf_cases Y) as [HY|[RY HY]].
  - eapply (rentLoop_invariant c (inLeaseYear c pre f0)) in Hrun.
    + destruct Hrun as (k & lastRec & (tail & body & l & dd & Hb & -> & Hl & Hc & Hm & _) & _).
      subst body. rewrite Hlen, Hlen'. repeat split.
      * rewrite Hfirst, firstn_app, firstn_all2 by lia.
        replace (length pre + 1 - length pre)%nat with 1%nat by lia. reflexivity.
      * destruct Hpre as [->|(a & Hgt & ->)]; [exact Hc|].
        split; [|exact Hc]. apply (proj1 Hseed).
      * rewrite skipn_app, skipn_all, Nat.sub_diag. exact Hm.
    + intros. eapply inLeaseYear_step; eauto.
    + exists [], [f0], f0, (Z.min (dayOfMonthRentDue c) (daysOfMonth Y (getMonth L))).
      rewrite HY in SY, SD.
      repeat split; try assumption; try reflexivity. apply Z.le_min_r.
  - cbn [rentLoop] in Hrun. rewrite lastRecord_snoc in Hrun.
    replace (getMonth L <=?
             calculateMonthDifference (windowEndDate c) (rentDueDate f0)) with false
      in Hrun.
    + injection Hrun as <-. rewrite Hlen, <- Hfirst. repeat split.
      * apply firstn_all.
      * rewrite Hfirst. exact Hseed.
      * rewrite Hfirst, skipn_app, skipn_all, Nat.sub_diag. exact I.
    + symmetry. apply Z.leb_gt. unfold calculateMonthDifference.
      cbn [rentDueDate f0]. rewrite SY, window_in_lease_year. fold L Y.
      rewrite (proj2 (Z.gtb_gt _ _)) by lia. lia.
Qed.
End Chronology.

(** X2. When the window ends on or before the due date of the last
    first-month record and that date is not in January, the loop appends
    nothing: the schedule is the first-month records. *)
Lemma first_month_only_after_january c :
  let first :=
    calculateFirstMonthRent (dayOfMonthRentDue c) (leaseStartDate c)
      (baseMonthlyRent c) (rentChangeRate c) in
  let due := correctRentDueDate (getFullYear (leaseStartDate c))
               (getMonth (leaseStartDate c)) (dayOfMonthRentDue c) in
  localDay (windowEndDate c) <= localDay due ->
  getMonth due <> 0 ->
  calculateMonthlyRent c = Some (Normal first).
Proof.
  intros first due Hend Hjan. unfold calculateMonthlyRent. fold first.
  destruct (calculateFirstMonthRent_shape (dayOfMonthRentDue c) (leaseStartDate c)
              (baseMonthlyRent c) (rentChangeRate c)) as (pre & amount & Hfirst & _).
  fold first due in Hfirst. rewrite Hfirst, lastRecord_snoc.
  cbn [rentLoop rentDueDate]. rewrite lastRecord_snoc. cbn [rentDueDate].
  replace (getMonth due <=? calculateMonthDifference (windowEndDate c) due) with false;
    [reflexivity|].
  symmetry. apply Z.leb_gt.
  pose proof (MonthFromDay_range (localDay due)) as Rm. fold (getMonth due) in Rm.
  pose proof (YearFromDay_mono _ _ Hend) as Hy.
  fold (getFullYear (windowEndDate c)) (getFullYear due) in Hy.
  unfold calculateMonthDifference.
  destruct (Z.gtb_spec (getFullYear due) (getFullYear (windowEndDate c))); [lia|].
  rewrite (proj2 (Z.eqb_eq _ _)) by lia.
  pose proof (MonthFromDay_mono _ _ Hend ltac:(unfold getFullYear in *; lia)) as Hm.
  fold (getMonth (windowEndDate c)) (getMonth due) in Hm. lia.
Qed.

(* ================================================================= *)
(** ** Escalation along the schedule *)

Lemma lastRecord_nth rs l :
  lastRecord rs = Some l -> nth_error rs (length rs - 1) = Some l.
Proof. unfold lastRecord. trivial. Qed.

(** When the first month yields one record, due in January, the counter is
    the index of the last record throughout, and each new amount is taken
    from the record before it: escalated when the counter is a multiple of
    the frequency, copied otherwise. *)
Lemma january_single_record_chain c f0 rs :
  calculateFirstMonthRent (dayOfMonthRentDue c) (leaseStartDate c)
    (baseMonthlyRent c) (rentChangeRate c) = [f0] ->
  getMonth (rentDueDate f0) = 0 ->
  calculateMonthlyRent c = Some (Normal rs) ->
  amountsChained c rs.
Proof.
  intros Hfirst Hjan Hrun. unfold calculateMonthlyRent in Hrun.
  rewrite Hfirst in Hrun. cbn [lastRecord length Nat.sub nth_error] in Hrun.
  rewrite Hjan in Hrun.
  eapply (rentLoop_invariant c
            (fun month rs => 0 <= month /\ length rs = S (Z.to_nat month) /\
                             amountsChained c rs)) in Hrun.
  - destruct Hrun as (_ & _ & (_ & _ & H) & _). exact H.
  - intros month rs0 lastRec r (Hm & Hlen & Hchain) Hlast _ Happ.
    split; [lia|]. split.
    + rewrite length_app, Hlen. cbn [length]. rewrite Z2Nat.inj_add by lia.
      change (Z.to_nat 1) with 1%nat. lia.
    + intros i a b Ha Hb.
      destruct (Nat.lt_ge_cases (S i) (length rs0)) as [Hlt|Hge].
      * rewrite nth_error_app1 in Ha, Hb by lia. eapply Hchain; eassumption.
      * assert (Hi : S i = length rs0).
        { assert (S i < length (rs0 ++ [r]))%nat
            by (apply nth_error_Some; congruence).
          rewrite length_app in *. cbn [length] in *. lia. }
        rewrite nth_error_app2, Hi, Nat.sub_diag in Hb by lia.
        injection Hb as <-.
        rewrite nth_error_app1 in Ha by lia.
        assert (Ei : i = Z.to_nat month) by lia.
        apply lastRecord_nth in Hlast.
        replace (length rs0 - 1)%nat with i in Hlast by lia.
        rewrite Hlast in Ha. injection Ha as <-.
        unfold nextAmount. rewrite Ei, Z2Nat.id by lia.
        destruct Happ as [Hrem|r' Hrem Hat]; cbn [rentAmount]; rewrite Hrem.
        -- reflexivity.
        -- unfold recordAt in Hat.
           rewrite (proj2 (Z.ltb_ge month 0)) in Hat by lia.
           rewrite <- Ei, Hlast in Hat. injection Hat as <-. reflexivity.
  - split; [lia|]. split; [reflexivity|].
    intros [|i] a b Ha Hb; cbn in Hb; [discriminate|].
    destruct i; discriminate.
Qed.

(** In particular, with a change every 12 months, the record that the 13th
    iteration appends is an escalation of the record before it, and the
    eleven records before it each copy their predecessor. *)
Lemma january_single_record_thirteenth c f0 rs a b :
  rentRateChangeFrequency c = 12 ->
  calculateFirstMonthRent (dayOfMonthRentDue c) (leaseStartDate c)
    (baseMonthlyRent c) (rentChangeRate c) = [f0] ->
  getMonth (rentDueDate f0) = 0 ->
  calculateMonthlyRent c = Some (Normal rs) ->
  nth_error rs 12 = Some a -> nth_error rs 13 = Some b ->
  rentAmount b =
  roundToTwoDecimalPlaces (calculateNewMonthlyRent (rentAmount a) (rentChangeRate c)).
Proof.
  intros Hf Hfirst Hjan Hrun Ha Hb.
  rewrite (january_single_record_chain c f0 rs Hfirst Hjan Hrun 12%nat a b Ha Hb).
  unfold nextAmount. rewrite Hf. reflexivity.
Qed.

(* ================================================================= *)
(** ** The scenarios, evaluated *)

(** C1. On the scenario contract (base rent 1000, lease from 2024-01-15,
    rent due on the 15th, window to 2024-03-31, change of 5% every 12
    months) the schedule has three records, none vacant, due on the 15th of
    January, February and March 2024; the amounts are 1000, 1050, 1050 and
    not 1000, 1000, 1000: the loop counter starts at the zero-based month of
    the first due date, 0 for January, and 0 is a multiple of 12. *)
Theorem scenario_schedule :
  calculateMonthlyRent scenarioContract =
  Some (Normal [ mkRecord false 1000 (newDate 2024 0 15);
                 mkRecord false 1050 (newDate 2024 1 15);
                 mkRecord false 1050 (newDate 2024 2 15) ]).
Proof. vm_compute. reflexivity. Qed.

(** C2. With a frequency of 12 and a rate of 0.05, a lease from 10 January
    with rent due on the 15th gets the amounts 166.67, 1000, 1050, 1000: the
    record after the escalation does not keep the amount of the record
    before it, because it copies the record at index [month], not the last
    one. *)
Theorem lookback_reverts_escalation :
  calculateMonthlyRent twoSeedContract =
  Some (Normal [ mkRecord false 166.67 (newDate 2024 0 10);
                 mkRecord false 1000 (newDate 2024 0 15);
                 mkRecord false 1050 (newDate 2024 1 15);
                 mkRecord false 1000 (newDate 2024 2 15) ]).
Proof. vm_compute. reflexivity. Qed.

(** C3. The schedule is not one entry per month through the month of the
    window end, and not always chronological.  On the scenario contract
    with a window to 30 April 2024 the first month yields one record and
    the schedule has three, due in January, February and March: the month
    of the window end, April, has no entry.  The loop compares its counter,
    which grows with the month of the last record, with the month
    difference from that record to the window end, which shrinks.  On the
    contract with a window to March 2027 the record after the one due on 15
    January 2025 is due on 15 February 2024: every due date is built in the
    lease-start year. *)
Theorem schedule_misses_window_months :
  calculateFirstMonthRent 15 (newDate 2024 0 15) 1000 0.05 =
    [ mkRecord false 1000 (newDate 2024 0 15) ] /\
  calculateMonthlyRent aprilWindowContract =
    Some (Normal [ mkRecord false 1000 (newDate 2024 0 15);
                   mkRecord false 1050 (newDate 2024 1 15);
                   mkRecord false 1050 (newDate 2024 2 15) ]) /\
  getMonth (windowEndDate aprilWindowContract) = 3 /\
  windowMonths aprilWindowContract = [24288; 24289; 24290; 24291] /\
  map (fun r => monthIndex (rentDueDate r))
    [ mkRecord false 1000 (newDate 2024 0 15);
      mkRecord false 1050 (newDate 2024 1 15);
      mkRecord false 1050 (newDate 2024 2 15) ] = [24288; 24289; 24290] /\
  oneEntryPerMonth aprilWindowContract
    [ mkRecord false 1000 (newDate 2024 0 15);
      mkRecord false 1050 (newDate 2024 1 15);
      mkRecord false 1050 (newDate 2024 2 15) ] = false /\
  exists rs r12 r13,
    calculateMonthlyRent longWindowContract = Some (Normal rs) /\
    nth_error rs 12 = Some r12 /\ nth_error rs 13 = Some r13 /\
    rentDueDate r12 = newDate 2025 0 15 /\
    rentDueDate r13 = newDate 2024 1 15 /\
    localDay (rentDueDate r13) < localDay (rentDueDate r12).
Proof.
  do 6 (split; [vm_compute; reflexivity|]).
  destruct (calculateMonthlyRent longWindowContract) as [[rs|e]|] eqn:H;
    vm_compute in H; try discriminate.
  injection H as <-. do 3 eexists. repeat split.
Qed.

(** The first month holds two records when the lease starts before the due
    day: a lease from 10 February with rent due on the 15th and a window to
    29 February has two entries for February. *)
Lemma two_entries_in_first_month :
  calculateMonthlyRent februaryContract =
  Some (Normal [ mkRecord false 166.67 (newDate 2024 1 10);
                 mkRecord false 1000 (newDate 2024 1 15) ]) /\
  oneEntryPerMonth februaryContract
    [ mkRecord false 166.67 (newDate 2024 1 10);
      mkRecord false 1000 (newDate 2024 1 15) ] = false.
Proof. vm_compute. split; reflexivity. Qed.

Lemma schedule_chronological_witness :
  chronological [ mkRecord false 1000 (newDate 2024 0 15);
                  mkRecord false 1050 (newDate 2024 1 15);
                  mkRecord false 1050 (newDate 2024 2 15) ].
Proof.
  refine (proj1 (proj2 (schedule_chronological scenarioContract _ _ _ _))).
  - vm_compute. discriminate.
  - vm_compute. reflexivity.
  - vm_compute. reflexivity.
Defined.

(** Past December the due dates go back: the year of every due date is the
    lease-start year, so the record after January 2025 is due in February
    2024. *)
Example due_dates_go_back_after_december :
  exists rs r12 r13,
    calculateMonthlyRent longWindowContract = Some (Normal rs) /\
    nth_error rs 12 = Some r12 /\ nth_error rs 13 = Some r13 /\
    rentDueDate r12 = newDate 2025 0 15 /\
    rentDueDate r13 = newDate 2024 1 15.
Proof.
  destruct (calculateMonthlyRent longWindowContract) as [[rs|e]|] eqn:H;
    vm_compute in H; try discriminate.
  injection H as <-. do 3 eexists. repeat split.
Qed.

(** C4. The scenario with a window that ends on 2024-01-10, before the
    first due date 2024-01-15: the first month yields one record, and the
    schedule has a second one, due on 2024-02-15. *)
Theorem short_window_appends_record :
  (localDay (windowEndDate shortWindowContract) <=? localDay (newDate 2024 0 15))
    = true /\
  calculateFirstMonthRent 15 (newDate 2024 0 15) 1000 0.05 =
    [ mkRecord false 1000 (newDate 2024 0 15) ] /\
  calculateMonthlyRent shortWindowContract =
    Some (Normal [ mkRecord false 1000 (newDate 2024 0 15);
                   mkRecord false 1050 (newDate 2024 1 15) ]).
Proof. vm_compute. repeat split. Qed.

(** C5 fails where the year of the first date exceeds the year of the
    second: from January 2024 to March 2025 the difference is 2, not -1. *)
Lemma month_difference_later_end_year :
  getFullYear (newDate 2025 2 1) > getFullYear (newDate 2024 0 1) /\
  calculateMonthDifference (newDate 2025 2 1) (newDate 2024 0 1) = 2.
Proof. vm_compute. split; reflexivity. Qed.

Lemma calculateMonthDifference_sentinel_witness :
  calculateMonthDifference (newDate 2024 0 1) (newDate 2025 2 1) = -1.
Proof.
  apply calculateMonthDifference_sentinel. vm_compute. reflexivity.
Defined.

(** C7 fails for the years that [Date] does not read as they are: year 0 is
    a leap year, with 29 days in February, and for day 30 of February of
    year 0 the date returned is 28 February 1900; for year 50 the date
    returned lies in 1950. *)
Lemma two_digit_year_lands_in_1900s :
  isGregorianLeap 0 = true /\ daysOfMonth 0 1 = 29 /\
  getFullYear (correctRentDueDate 0 1 30) = 1900 /\
  getMonth (correctRentDueDate 0 1 30) = 1 /\
  getDate (correctRentDueDate 0 1 30) = 28 /\
  getFullYear (correctRentDueDate 50 3 10) = 1950.
Proof. vm_compute. repeat split. Qed.

Lemma correctRentDueDate_clamps_witness :
  getDate (correctRentDueDate 2024 1 30) = 29 /\
  getDate (correctRentDueDate 2023 1 30) = 28 /\
  getDate (correctRentDueDate 2024 3 31) = 30.
Proof.
  destruct (correctRentDueDate_clamps 2024 1 30 ltac:(lia) ltac:(lia))
    as (_ & _ & _ & _ & H1).
  destruct (correctRentDueDate_clamps 2023 1 30 ltac:(lia) ltac:(lia))
    as (_ & _ & _ & _ & H2).
  destruct (correctRentDueDate_clamps 2024 3 31 ltac:(lia) ltac:(lia))
    as (_ & _ & _ & H3 & _).
  exact (conj (H1 eq_refl eq_refl) (conj (H2 eq_refl eq_refl) (H3 eq_refl eq_refl))).
Defined.

(** C9. A lease from 15 February with rent due on the 15th, a window to 31
    March and a frequency of 12: the loop starts with one record and the
    counter at 1, takes the branch without escalation, and reads the record
    at index 1, which is not there: the call throws [TypeError]. *)
Theorem lookback_out_of_bounds :
  1 <= rentRateChangeFrequency lookbackContract /\
  calculateFirstMonthRent 15 (newDate 2024 1 15) 1000 0.05 =
    [ mkRecord false 1000 (newDate 2024 1 15) ] /\
  getMonth (newDate 2024 1 15) = 1 /\
  rem_is_zero 1 (rentRateChangeFrequency lookbackContract) = false /\
  recordAt [ mkRecord false 1000 (newDate 2024 1 15) ] 1 = None /\
  calculateMonthlyRent lookbackContract = Some (Throw TypeError).
Proof. vm_compute. repeat split; discriminate. Qed.

(* ================================================================= *)
(** ** Month lengths and due dates, at the edges *)

(** X3. [getDaysInMonth], which reads the month length off day 0 of the
    next month, returns the length of the month in the Gregorian calendar,
    with the rule of the years divisible by 400. *)
Theorem getDaysInMonth_gregorian year month :
  0 <= month <= 11 ->
  getDaysInMonth year month = daysOfMonth (fullYearOf year) month.
Proof.
  intros H. rewrite getDaysInMonth_spec. unfold carriedYear, carriedMonth.
  rewrite Z.div_small, Z.mod_small, Z.add_0_r by lia. reflexivity.
Qed.

Lemma getDaysInMonth_gregorian_witness :
  getDaysInMonth 2000 1 = 29 /\ getDaysInMonth 1900 1 = 28 /\
  getDaysInMonth 2023 11 = 31.
Proof.
  rewrite !getDaysInMonth_gregorian by lia. vm_compute. repeat split.
Defined.

Lemma rem_zero_mod a b : 0 < b -> (Z.rem a b =? 0) = (a mod b =? 0).
Proof.
  intros Hb.
  destruct (Z.eqb_spec (Z.rem a b) 0) as [E|E], (Z.eqb_spec (a mod b) 0) as [F|F];
    try reflexivity; exfalso.
  - apply F. apply Z.rem_divide in E; [|lia]. apply Z.mod_divide; [lia|exact E].
  - apply E. apply Z.mod_divide in F; [|lia]. apply Z.rem_divide; [lia|exact F].
Qed.

(** X4. [isLeapYear] and the month length that [getDaysInMonth] reads from
    [Date] disagree on the years divisible by 400: February has 29 days
    exactly when [isLeapYear] holds or the year is a multiple of 400 other
    than 0 (which [Date] reads as 1900). *)
Theorem isLeapYear_misses_400 year :
  getDaysInMonth year 1 = 29 <->
  isLeapYear year = true \/ (year mod 400 = 0 /\ year <> 0).
Proof.
  rewrite getDaysInMonth_spec. unfold carriedYear, carriedMonth.
  change (1 / 12) with 0. change (1 mod 12) with 1. rewrite Z.add_0_r.
  unfold daysOfMonth, isGregorianLeap, isLeapYear.
  rewrite !rem_zero_mod by lia.
  unfold fullYearOf.
  destruct (Z.leb_spec 0 year), (Z.leb_spec year 99); cbn [andb];
    repeat match goal with
           | |- context [ ?a =? ?b ] => destruct (Z.eqb_spec a b)
           end; cbn [andb orb negb];
    (split; [intros E|intros [E|[E1 E2]]]);
    try discriminate; try lia; try (left; reflexivity);
    try (right; Z.div_mod_to_equations; lia);
    try (exfalso; Z.div_mod_to_equations; lia).
Qed.

(** X5. A month outside 0-11 is carried into the year, as [Date] does:
    month 12 is January of the next year, which is what the loop passes
    after a record due in December.  The day is clamped to the length of
    the month reached. *)
Theorem correctRentDueDate_carries_month year month day :
  1 <= day ->
  let t := correctRentDueDate year month day in
  let y := fullYearOf year + month / 12 in
  let m := month mod 12 in
  getFullYear t = y /\ getMonth t = m /\
  getDate t = Z.min day (daysOfMonth y m).
Proof.
  intros Hd t y m.
  destruct (correctRentDueDate_spec year month day Hd) as (Y & M & D & _).
  repeat split; assumption.
Qed.

Lemma correctRentDueDate_carries_month_witness :
  correctRentDueDate 2024 12 31 = newDate 2025 0 31 /\
  getFullYear (correctRentDueDate 2024 13 30) = 2025 /\
  getMonth (correctRentDueDate 2024 13 30) = 1 /\
  getDate (correctRentDueDate 2024 13 30) = 28.
Proof.
  destruct (correctRentDueDate_carries_month 2024 13 30 ltac:(lia)) as (Y & M & D).
  split; [vm_compute; reflexivity|]. exact (conj Y (conj M D)).
Defined.

Lemma MakeDay_zero_carry y m :
  MakeDay y m 0 =
  MakeDay (y + (m - 1) / 12) ((m - 1) mod 12)
    (daysOfMonth (y + (m - 1) / 12) ((m - 1) mod 12)).
Proof.
  assert (Hm : 0 <= (m - 1) mod 12 <= 11)
    by (pose proof (Z.mod_pos_bound (m - 1) 12); lia).
  rewrite <- MakeDay_zero by assumption.
  unfold MakeDay. f_equal. f_equal.
  assert (E1 : m / 12 = (m - 1) / 12 + ((m - 1) mod 12 + 1) / 12)
    by (Z.div_mod_to_equations; lia).
  assert (E2 : m mod 12 = ((m - 1) mod 12 + 1) mod 12)
    by (Z.div_mod_to_equations; lia).
  rewrite E1, E2, Z.add_assoc. reflexivity.
Qed.

(** X6. A due day of 0 or less is neither refused nor clamped: the date is
    counted back from the last day of the month before, so day 0 is that
    last day. *)
Theorem correctRentDueDate_nonpositive_day year month day :
  day <= 0 ->
  localDay (correctRentDueDate year month day) =
  localDay (correctRentDueDate year (month - 1) 31) + day.
Proof.
  intros Hd.
  destruct (correctRentDueDate_spec year (month - 1) 31 ltac:(lia)) as (_ & _ & _ & ->).
  unfold carriedYear, carriedMonth.
  pose proof (daysOfMonth_pos (fullYearOf year + (month - 1) / 12) ((month - 1) mod 12)) as B.
  rewrite Z.min_r by lia.
  rewrite <- MakeDay_zero_carry.
  unfold correctRentDueDate. rewrite getDaysInMonth_spec.
  pose proof (daysOfMonth_pos (carriedYear year month) (carriedMonth month)) as B'.
  destruct (Z.gtb_spec day (daysOfMonth (carriedYear year month) (carriedMonth month)));
    [lia|].
  unfold newDate. cbn [localDay]. apply MakeDay_date.
Qed.

Lemma correctRentDueDate_nonpositive_day_witness :
  correctRentDueDate 2024 2 0 = newDate 2024 1 29 /\
  localDay (correctRentDueDate 2024 2 (-1)) = localDay (newDate 2024 1 29) + -1.
Proof.
  split; [vm_compute; reflexivity|].
  rewrite (correctRentDueDate_nonpositive_day 2024 2 (-1)) by lia.
  vm_compute. reflexivity.
Defined.

(* ================================================================= *)
(** ** Month differences *)

(** X7. When the first date is in a later year than the second,
    [calculateMonthDifference] counts the whole years between the two years
    and adds the distance between the two months, whichever comes first in
    its year: it is the number of calendar months from the second date to
    the first only when the month of the second date is six months after
    the month of the first. *)
Theorem calculateMonthDifference_across_years a b :
  getFullYear b < getFullYear a ->
  calculateMonthDifference a b =
    monthIndex a - monthIndex b - 12 + 2 * Z.max 0 (getMonth b - getMonth a) /\
  (calculateMonthDifference a b = monthIndex a - monthIndex b <->
   getMonth b - getMonth a = 6).
Proof.
  intros H. unfold calculateMonthDifference, monthIndex.
  destruct (Z.gtb_spec (getFullYear b) (getFullYear a)); [lia|].
  destruct (Z.eqb_spec (getFullYear b) (getFullYear a)); [lia|].
  destruct (Z.gtb_spec (getMonth b) (getMonth a)); lia.
Qed.

Lemma calculateMonthDifference_across_years_witness :
  calculateMonthDifference (newDate 2025 0 31) (newDate 2024 11 15) = 11 /\
  monthIndex (newDate 2025 0 31) - monthIndex (newDate 2024 11 15) = 1.
Proof.
  destruct (calculateMonthDifference_across_years (newDate 2025 0 31) (newDate 2024 11 15))
    as [E _].
  - vm_compute. reflexivity.
  - rewrite E. vm_compute. split; reflexivity.
Defined.

(* ================================================================= *)
(** ** The first month *)

Lemma fullYearOf_late y : 100 <= y -> fullYearOf y = y.
Proof.
  intros H. unfold fullYearOf. destruct (Z.leb_spec y 99); [lia|].
  rewrite andb_false_r. reflexivity.
Qed.

(** X8. When the lease starts on the due day, the one record of the first
    month is due on the lease-start date itself: building the due date from
    the year, month and day of a date gives that date again. *)
Theorem first_record_due_on_lease_start L base rate :
  100 <= getFullYear L ->
  calculateFirstMonthRent (getDate L) L base rate =
  [mkRecord (isVacant rate) base L].
Proof.
  intros HY. unfold calculateFirstMonthRent. rewrite Z.eqb_refl.
  f_equal. f_equal.
  destruct (civil_of_day (localDay L)) as [Rd EL].
  pose proof (MonthFromDay_range (localDay L)) as Rm.
  fold (getFullYear L) (getMonth L) (getDate L) in Rd, EL. fold (getMonth L) in Rm.
  unfold correctRentDueDate. rewrite getDaysInMonth_spec.
  unfold carriedYear, carriedMonth.
  rewrite Z.div_small, Z.mod_small, Z.add_0_r by lia.
  pose proof (fullYearOf_late (getFullYear L) HY) as F.
  rewrite F.
  destruct (Z.gtb_spec (getDate L) (daysOfMonth (getFullYear L) (getMonth L))); [lia|].
  unfold newDate. rewrite F, <- EL. destruct L; reflexivity.
Qed.

Lemma first_record_due_on_lease_start_witness :
  calculateFirstMonthRent 29 (newDate 2024 1 29) 1000 0.05 =
  [mkRecord false 1000 (newDate 2024 1 29)].
Proof.
  apply (first_record_due_on_lease_start (newDate 2024 1 29) 1000 0.05).
  vm_compute. discriminate.
Defined.

(** X9. Every record of the first month is due in the month and year in
    which the lease starts. *)
Theorem first_month_records_in_lease_month d L base rate :
  1 <= d -> 100 <= getFullYear L ->
  Forall (fun r => getFullYear (rentDueDate r) = getFullYear L /\
                   getMonth (rentDueDate r) = getMonth L)
    (calculateFirstMonthRent d L base rate).
Proof.
  intros Hd HY.
  pose proof (MonthFromDay_range (localDay L)) as Rm. fold (getMonth L) in Rm.
  destruct (correctRentDueDate_spec (getFullYear L) (getMonth L) d Hd) as (SY & SM & _).
  unfold carriedYear, carriedMonth in SY, SM.
  rewrite Z.div_small, Z.add_0_r in SY by lia. rewrite Z.mod_small in SM by lia.
  pose proof (fullYearOf_late (getFullYear L) HY) as F.
  rewrite F in SY.
  destruct (calculateFirstMonthRent_shape d L base rate) as (pre & amount & -> & Hpre).
  apply Forall_app. split.
  - destruct Hpre as [->|(a & _ & ->)]; constructor; [|constructor].
    cbn [rentDueDate]. split; reflexivity.
  - constructor; [|constructor]. cbn [rentDueDate]. split; assumption.
Qed.

Lemma first_month_records_in_lease_month_witness :
  Forall (fun r => getFullYear (rentDueDate r) = 2024 /\ getMonth (rentDueDate r) = 1)
    (calculateFirstMonthRent 31 (newDate 2024 1 10) 1000 0.05).
Proof.
  apply (first_month_records_in_lease_month 31 (newDate 2024 1 10) 1000 0.05).
  - lia.
  - vm_compute. discriminate.
Defined.

(** The proration factors, one for each distance between the due day and
    the lease-start day. *)
Lemma late_factor_range k :
  -30 <= k <= -1 ->
  (1 <? 1 - of_Z k / 30)%float = true /\ (1 - of_Z k / 30 <=? 2)%float = true.
Proof.
  intros H.
  assert (C : exists j, k = - Z.of_nat j /\ (1 <= j <= 30)%nat)
    by (exists (Z.to_nat (- k)); lia).
  destruct C as (j & -> & Hj).
  do 31 (destruct j as [|j]; [try lia; vm_compute; split; reflexivity|]).
  lia.
Qed.

Lemma early_factor_range k :
  1 <= k <= 30 ->
  (0 <? of_Z k / 30)%float = true /\ (of_Z k / 30 <=? 1)%float = true.
Proof.
  intros H.
  assert (C : exists j, k = Z.of_nat j /\ (1 <= j <= 30)%nat)
    by (exists (Z.to_nat k); lia).
  destruct C as (j & -> & Hj).
  do 31 (destruct j as [|j]; [try lia; vm_compute; split; reflexivity|]).
  lia.
Qed.

(** X10. A lease that starts after the due day of its month is charged more
    than one month for the first month: the one record of the first month
    is the base rent times a factor above 1 and at most 2, rounded. *)
Theorem late_start_charges_more d L base rate :
  1 <= d < getDate L ->
  exists f,
    (1 <? f)%float = true /\ (f <=? 2)%float = true /\
    calculateFirstMonthRent d L base rate =
    [mkRecord (isVacant rate) (roundToTwoDecimalPlaces (base * f))
       (correctRentDueDate (getFullYear L) (getMonth L) d)].
Proof.
  intros Hd.
  destruct (civil_of_day (localDay L)) as [Rd _]. fold (getDate L) in Rd.
  pose proof (daysOfMonth_pos (YearFromDay (localDay L)) (MonthFromDay (localDay L))).
  destruct (late_factor_range (d - getDate L) ltac:(lia)) as [F1 F2].
  exists (1 - of_Z (d - getDate L) / 30)%float.
  split; [exact F1|]. split; [exact F2|].
  unfold calculateFirstMonthRent.
  rewrite (proj2 (Z.eqb_neq d (getDate L))) by lia.
  rewrite (proj2 (Z.ltb_lt d (getDate L))) by lia. cbn [of_bool].
  rewrite mul_one_r. reflexivity.
Qed.

Lemma late_start_charges_more_witness :
  exists f,
    (1 <? f)%float = true /\ (f <=? 2)%float = true /\
    calculateFirstMonthRent 5 (newDate 2024 0 20) 1000 0.05 =
    [mkRecord false (roundToTwoDecimalPlaces (1000 * f)) (newDate 2024 0 5)].
Proof.
  destruct (late_start_charges_more 5 (newDate 2024 0 20) 1000 0.05) as (f & A & B & C).
  - vm_compute. split; [discriminate|reflexivity].
  - exists f. split; [exact A|]. split; [exact B|]. exact C.
Defined.

(** X11. A lease that starts after the due day of its month gets its one
    first-month record dated before the lease starts: the due date is the
    due day of the lease-start month. *)
Theorem late_start_due_before_lease d L base rate :
  1 <= d < getDate L -> 100 <= getFullYear L ->
  Forall (fun r => localDay (rentDueDate r) < localDay L)
    (calculateFirstMonthRent d L base rate).
Proof.
  intros Hd HY.
  destruct (civil_of_day (localDay L)) as [Rd EL].
  pose proof (MonthFromDay_range (localDay L)) as Rm.
  fold (getFullYear L) (getMonth L) (getDate L) in Rd, EL. fold (getMonth L) in Rm.
  destruct (correctRentDueDate_spec (getFullYear L) (getMonth L) d (proj1 Hd))
    as (_ & _ & _ & SD).
  unfold carriedYear, carriedMonth in SD.
  rewrite Z.div_small, Z.mod_small, Z.add_0_r in SD by lia.
  pose proof (fullYearOf_late (getFullYear L) HY) as F.
  rewrite F in SD.
  unfold calculateFirstMonthRent.
  rewrite (proj2 (Z.eqb_neq d (getDate L))) by lia.
  rewrite (proj2 (Z.ltb_lt d (getDate L))) by lia.
  constructor; [|constructor]. cbn [rentDueDate].
  rewrite SD, EL at 1.
  rewrite (MakeDay_date _ _ (Z.min _ _)), (MakeDay_date _ _ (getDate L)). lia.
Qed.

Lemma late_start_due_before_lease_witness :
  Forall (fun r => localDay (rentDueDate r) < localDay (newDate 2024 0 20))
    [mkRecord false 1500 (newDate 2024 0 5)].
Proof.
  refine (late_start_due_before_lease 5 (newDate 2024 0 20) 1000 0.05 _ _).
  - vm_compute. split; [discriminate|reflexivity].
  - vm_compute. discriminate.
Defined.

(** X12. A lease that starts before the due day of its month gets two records
    for the first month: the base rent times a factor above 0 and at most
    1, rounded, dated at the lease start, and then the whole base rent at
    the due date. *)
Theorem early_start_prorates d L base rate :
  getDate L < d <= 31 ->
  exists f,
    (0 <? f)%float = true /\ (f <=? 1)%float = true /\
    calculateFirstMonthRent d L base rate =
    [mkRecord (isVacant rate) (roundToTwoDecimalPlaces (base * f)) L;
     mkRecord (isVacant rate) base
       (correctRentDueDate (getFullYear L) (getMonth L) d)].
Proof.
  intros Hd.
  destruct (civil_of_day (localDay L)) as [Rd _]. fold (getDate L) in Rd.
  destruct (early_factor_range (d - getDate L) ltac:(lia)) as [F1 F2].
  exists (of_Z (d - getDate L) / 30)%float.
  split; [exact F1|]. split; [exact F2|].
  unfold calculateFirstMonthRent.
  rewrite (proj2 (Z.eqb_neq d (getDate L))) by lia.
  rewrite (proj2 (Z.ltb_ge d (getDate L))) by lia. cbn [of_bool].
  rewrite proration_after; [reflexivity|].
  apply proration_nonzero. lia.
Qed.

Lemma early_start_prorates_witness :
  exists f,
    (0 <? f)%float = true /\ (f <=? 1)%float = true /\
    calculateFirstMonthRent 31 (newDate 2024 0 1) 1000 0.05 =
    [mkRecord false (roundToTwoDecimalPlaces (1000 * f)) (newDate 2024 0 1);
     mkRecord false 1000 (newDate 2024 0 31)].
Proof.
  destruct (early_start_prorates 31 (newDate 2024 0 1) 1000 0.05) as (f & A & B & C).
  - vm_compute. split; [reflexivity|discriminate].
  - exists f. split; [exact A|]. split; [exact B|]. exact C.
Defined.

(* ================================================================= *)
(** ** The loop, from its first state *)

(** [calculateMonthlyRent] runs the loop from the first-month records, with
    the counter at the month of the first due date, and with enough fuel. *)
Lemma calculateMonthlyRent_loop c :
  let first := calculateFirstMonthRent (dayOfMonthRentDue c) (leaseStartDate c)
                 (baseMonthlyRent c) (rentChangeRate c) in
  let due := correctRentDueDate (getFullYear (leaseStartDate c))
               (getMonth (leaseStartDate c)) (dayOfMonthRentDue c) in
  exists fuel f0,
    lastRecord first = Some f0 /\ rentDueDate f0 = due /\
    calculateMonthlyRent c = rentLoop fuel c (getMonth due) first /\
    rentLoop fuel c (getMonth due) first <> None.
Proof.
  intros first due. unfold calculateMonthlyRent. fold first.
  destruct (calculateFirstMonthRent_shape (dayOfMonthRentDue c) (leaseStartDate c)
              (baseMonthlyRent c) (rentChangeRate c)) as (pre & amount & Hfirst & _).
  fold first due in Hfirst.
  assert (Hlast : lastRecord first =
                  Some (mkRecord (isVacant (rentChangeRate c)) amount due))
    by (rewrite Hfirst; apply lastRecord_snoc).
  rewrite Hlast. cbn [rentDueDate].
  eexists. eexists. split; [reflexivity|]. split; [reflexivity|].
  split; [reflexivity|].
  eapply (rentLoop_fuel c due); [exact Hlast|left; reflexivity|lia].
Qed.

(** A loop that keeps a property under which both array reads succeed does
    not throw. *)
Section LoopSafety.
Variable c : Contract.
Variable P : Z -> MonthlyRentRecords -> Prop.
Hypothesis step : forall month rs lastRec r,
  P month rs ->
  lastRecord rs = Some lastRec ->
  month <= calculateMonthDifference (windowEndDate c) (rentDueDate lastRec) ->
  appended c month rs lastRec r ->
  P (month + 1) (rs ++ [r]).
Hypothesis safe : forall month rs,
  P month rs ->
  lastRecord rs <> None /\
  (rem_is_zero month (rentRateChangeFrequency c) = false ->
   recordAt rs month <> None).

Lemma rentLoop_safe fuel : forall month rs e,
  P month rs -> rentLoop fuel c month rs <> Some (Throw e).
Proof.
  induction fuel as [|fuel IH]; intros month rs e HP; [discriminate|].
  cbn [rentLoop].
  destruct (safe month rs HP) as [Hlast Hat].
  destruct (lastRecord rs) as [lastRec|] eqn:El; [|congruence].
  destruct (Z.leb_spec month
    (calculateMonthDifference (windowEndDate c) (rentDueDate lastRec))) as [Hle|Hgt];
    [|discriminate].
  destruct (rem_is_zero month (rentRateChangeFrequency c)) eqn:Hrem.
  - apply IH. eapply step; eauto. now constructor.
  - destruct (recordAt rs month) as [r|] eqn:Er; [|exfalso; now apply Hat].
    apply IH. eapply step; eauto. now econstructor.
Qed.

Lemma rentLoop_returns fuel month rs :
  P month rs -> rentLoop fuel c month rs <> None ->
  exists out month' lastRec,
    rentLoop fuel c month rs = Some (Normal out) /\
    P month' out /\ lastRecord out = Some lastRec /\
    calculateMonthDifference (windowEndDate c) (rentDueDate lastRec) < month'.
Proof.
  intros HP Hrun.
  destruct (rentLoop fuel c month rs) as [[out|e]|] eqn:E; [| |congruence].
  - destruct (rentLoop_invariant c P step fuel month rs out HP E)
      as (month' & lastRec & H).
    exists out, month', lastRec. split; [reflexivity|exact H].
  - exfalso. exact (rentLoop_safe fuel month rs e HP E).
Qed.
End LoopSafety.

(* ================================================================= *)
(** ** What the schedule builder reads, and when it throws *)

Lemma first_month_only_after_january_witness :
  calculateMonthlyRent februaryShortContract =
  Some (Normal [mkRecord false 1000 (newDate 2024 1 15)]).
Proof.
  rewrite (first_month_only_after_january februaryShortContract).
  - vm_compute. reflexivity.
  - vm_compute. discriminate.
  - vm_compute. discriminate.
Defined.

Lemma rentLoop_window_start c t fuel : forall month rs,
  rentLoop fuel (withWindowStart c t) month rs = rentLoop fuel c month rs.
Proof.
  induction fuel as [|fuel IH]; intros month rs; [reflexivity|].
  cbn [rentLoop withWindowStart windowEndDate leaseStartDate dayOfMonthRentDue
       rentRateChangeFrequency rentChangeRate].
  destruct (lastRecord rs) as [lastRec|]; [|reflexivity].
  destruct (month <=? _); [|reflexivity].
  destruct (rem_is_zero month (rentRateChangeFrequency c)).
  - apply IH.
  - destruct (recordAt rs month); [apply IH|reflexivity].
Qed.

(** X13. [windowStartDate] is never read: a contract with another window
    start gets the same schedule, so records due before the window start
    are returned with the others. *)
Theorem window_start_is_not_read c t :
  calculateMonthlyRent (withWindowStart c t) = calculateMonthlyRent c.
Proof.
  unfold calculateMonthlyRent.
  cbn [withWindowStart windowEndDate leaseStartDate dayOfMonthRentDue
       baseMonthlyRent rentChangeRate].
  destruct (lastRecord _) as [lastRec|]; [|reflexivity].
  rewrite rentLoop_window_start. reflexivity.
Qed.

(** X14. When the window ends in a year before the year of the first due
    date, the loop does not run and the schedule is the first-month
    records: the schedule is not empty even for a window that ends before
    the lease starts. *)
Theorem window_before_lease_year c :
  let first := calculateFirstMonthRent (dayOfMonthRentDue c) (leaseStartDate c)
                 (baseMonthlyRent c) (rentChangeRate c) in
  let due := correctRentDueDate (getFullYear (leaseStartDate c))
               (getMonth (leaseStartDate c)) (dayOfMonthRentDue c) in
  getFullYear (windowEndDate c) < getFullYear due ->
  calculateMonthlyRent c = Some (Normal first) /\ first <> [].
Proof.
  intros first due Hy.
  destruct (calculateMonthlyRent_loop c) as (fuel & f0 & Hlast & Hdue & -> & Hrun).
  fold first due in Hlast, Hdue, Hrun |- *.
  split; [|intros E; rewrite E in Hlast; discriminate].
  destruct fuel as [|fuel]; [exfalso; apply Hrun; reflexivity|].
  cbn [rentLoop]. rewrite Hlast, Hdue.
  pose proof (MonthFromDay_range (localDay due)) as Rm. fold (getMonth due) in Rm.
  unfold calculateMonthDifference.
  rewrite (proj2 (Z.gtb_gt _ _)) by lia.
  rewrite (proj2 (Z.leb_gt _ _)) by lia. reflexivity.
Qed.

Lemma window_before_lease_year_witness :
  calculateMonthlyRent earlierWindowContract =
  Some (Normal [ mkRecord false 166.67 (newDate 2024 0 10);
                 mkRecord false 1000 (newDate 2024 0 15) ]).
Proof.
  refine (proj1 (window_before_lease_year earlierWindowContract _)).
  vm_compute. reflexivity.
Defined.

(** X15. The lookback by counter throws: when the loop runs, the zero-based
    month of the first due date is not a multiple of the frequency and is
    at least the number of first-month records, the first iteration reads
    a record that is not there, and [calculateMonthlyRent] throws
    [TypeError]. *)
Theorem lookback_throws c :
  let first := calculateFirstMonthRent (dayOfMonthRentDue c) (leaseStartDate c)
                 (baseMonthlyRent c) (rentChangeRate c) in
  let due := correctRentDueDate (getFullYear (leaseStartDate c))
               (getMonth (leaseStartDate c)) (dayOfMonthRentDue c) in
  Z.of_nat (length first) <= getMonth due ->
  rem_is_zero (getMonth due) (rentRateChangeFrequency c) = false ->
  getMonth due <= calculateMonthDifference (windowEndDate c) due ->
  calculateMonthlyRent c = Some (Throw TypeError).
Proof.
  intros first due Hlen Hrem Hle.
  destruct (calculateMonthlyRent_loop c) as (fuel & f0 & Hlast & Hdue & -> & Hrun).
  fold first due in Hlast, Hdue, Hrun |- *.
  destruct fuel as [|fuel]; [exfalso; apply Hrun; reflexivity|].
  cbn [rentLoop]. rewrite Hlast, Hdue.
  rewrite (proj2 (Z.leb_le _ _) Hle), Hrem.
  replace (recordAt first (getMonth due)) with (@None MonthlyRentRecord);
    [reflexivity|].
  symmetry. unfold recordAt.
  destruct (Z.ltb_spec (getMonth due) 0); [reflexivity|].
  apply nth_error_None. lia.
Qed.

Lemma lookback_throws_witness :
  calculateMonthlyRent marchContract = Some (Throw TypeError).
Proof.
  apply lookback_throws.
  - vm_compute. discriminate.
  - vm_compute. reflexivity.
  - vm_compute. discriminate.
Defined.

(** When the zero-based month of the first due date is less than the number
    of first-month records, the counter stays below the number of records,
    at a constant distance: every read is in bounds and the loop returns. *)
Lemma counter_below_length c :
  let first := calculateFirstMonthRent (dayOfMonthRentDue c) (leaseStartDate c)
                 (baseMonthlyRent c) (rentChangeRate c) in
  let due := correctRentDueDate (getFullYear (leaseStartDate c))
               (getMonth (leaseStartDate c)) (dayOfMonthRentDue c) in
  getMonth due < Z.of_nat (length first) ->
  exists rs month,
    calculateMonthlyRent c = Some (Normal rs) /\
    Z.of_nat (length rs) - month = Z.of_nat (length first) - getMonth due /\
    lookedBack c (length first) (length first - Z.to_nat (getMonth due)) rs.
Proof.
  intros first due Hlt.
  destruct (calculateMonthlyRent_loop c) as (fuel & f0 & Hlast & Hdue & -> & Hrun).
  fold first due in Hlast, Hdue, Hrun |- *.
  pose proof (MonthFromDay_range (localDay due)) as Rm. fold (getMonth due) in Rm.
  set (delta := (length first - Z.to_nat (getMonth due))%nat).
  assert (Hdelta : Z.of_nat delta = Z.of_nat (length first) - getMonth due)
    by (unfold delta; lia).
  set (P := fun (month : Z) (rs : MonthlyRentRecords) =>
              0 <= month /\
              Z.of_nat (length rs) - month = Z.of_nat delta /\
              lookedBack c (length first) delta rs).
  destruct (rentLoop_returns c P) with (fuel := fuel) (month := getMonth due) (rs := first)
    as (out & month' & _ & E & (_ & HP & HL) & _); [| | |exact Hrun|].
  - intros month rs lastRec r (H0 & Hl & Hback) Hlast' _ Happ.
    split; [lia|]. split; [rewrite length_app; cbn [length]; lia|].
    intros n a p b Hk Ha Hp Hb.
    destruct (Nat.lt_ge_cases n (length rs)) as [Hn|Hn].
    + rewrite nth_error_app1 in Ha, Hp, Hb by lia. eapply Hback; eassumption.
    + assert (En : n = length rs).
      { assert (n < length (rs ++ [r]))%nat by (apply nth_error_Some; congruence).
        rewrite length_app in *. cbn [length] in *. lia. }
      rewrite nth_error_app2, En, Nat.sub_diag in Hb by lia. injection Hb as <-.
      rewrite nth_error_app1 in Ha, Hp by lia.
      apply lastRecord_nth in Hlast'. rewrite <- En, Ha in Hlast'.
      injection Hlast' as ->.
      assert (Em : Z.of_nat (n - delta) = month) by lia.
      rewrite Em.
      destruct Happ as [Hrem|r' Hrem Hat]; cbn [rentAmount]; rewrite Hrem.
      * reflexivity.
      * unfold recordAt in Hat. rewrite (proj2 (Z.ltb_ge month 0)) in Hat by lia.
        rewrite <- Em, Nat2Z.id, Hp in Hat. injection Hat as <-. reflexivity.
  - intros month rs (H0 & Hl & _). split.
    + unfold lastRecord. intros E. apply nth_error_None in E. lia.
    + intros _. unfold recordAt. rewrite (proj2 (Z.ltb_ge month 0)) by lia.
      intros E. apply nth_error_None in E. lia.
  - split; [lia|]. split; [lia|].
    intros n a p b Hk _ _ Hb.
    assert (n < length first)%nat by (apply nth_error_Some; congruence). lia.
  - exists out, month'. split; [exact E|]. split; [lia|exact HL].
Qed.

(** X16. When the zero-based month of the first due date is less than the
    number of first-month records (a first due date in January, or in
    February after a prorated record), every read of the loop is in bounds
    and [calculateMonthlyRent] returns a schedule.  The counter then lags
    the number of records by a constant [delta] (1 or 2): each amount after
    the first month is the escalation of the amount before it when the
    counter is a multiple of the frequency, and otherwise the rounded
    amount of the record [delta] places back. *)
Theorem lookback_in_bounds_returns c :
  let first := calculateFirstMonthRent (dayOfMonthRentDue c) (leaseStartDate c)
                 (baseMonthlyRent c) (rentChangeRate c) in
  let due := correctRentDueDate (getFullYear (leaseStartDate c))
               (getMonth (leaseStartDate c)) (dayOfMonthRentDue c) in
  getMonth due < Z.of_nat (length first) ->
  exists rs,
    calculateMonthlyRent c = Some (Normal rs) /\
    lookedBack c (length first) (length first - Z.to_nat (getMonth due)) rs.
Proof.
  intros first due Hlt.
  destruct (counter_below_length c Hlt) as (rs & _ & E & _ & HL).
  exists rs. split; [exact E|exact HL].
Qed.

Lemma lookback_in_bounds_returns_witness :
  exists rs,
    calculateMonthlyRent twoSeedContract = Some (Normal rs) /\
    lookedBack twoSeedContract 2 2 rs.
Proof.
  apply (lookback_in_bounds_returns twoSeedContract). vm_compute. reflexivity.
Defined.

(** X17. A lease that starts in January, on or after the due day, gets a
    schedule in which every amount is taken from the record before it:
    escalated when the index of that record is a multiple of the frequency,
    copied and rounded otherwise. *)
Theorem january_schedule_chained c :
  1 <= dayOfMonthRentDue c <= getDate (leaseStartDate c) ->
  getMonth (leaseStartDate c) = 0 ->
  exists rs, calculateMonthlyRent c = Some (Normal rs) /\ amountsChained c rs.
Proof.
  intros Hd Hjan.
  assert (Hfirst : exists f0,
    calculateFirstMonthRent (dayOfMonthRentDue c) (leaseStartDate c)
      (baseMonthlyRent c) (rentChangeRate c) = [f0] /\
    rentDueDate f0 = correctRentDueDate (getFullYear (leaseStartDate c))
                       (getMonth (leaseStartDate c)) (dayOfMonthRentDue c)).
  { unfold calculateFirstMonthRent.
    destruct (Z.eqb_spec (dayOfMonthRentDue c) (getDate (leaseStartDate c))).
    - eexists. split; reflexivity.
    - rewrite (proj2 (Z.ltb_lt _ _)) by lia. eexists. split; reflexivity. }
  destruct Hfirst as (f0 & Hfirst & Hdue).
  assert (Hm : getMonth (rentDueDate f0) = 0).
  { rewrite Hdue, Hjan.
    destruct (correctRentDueDate_spec (getFullYear (leaseStartDate c)) 0
                (dayOfMonthRentDue c) (proj1 Hd)) as (_ & M & _). exact M. }
  destruct (counter_below_length c) as (rs & _ & Hrs & _ & _).
  { rewrite Hfirst, <- Hdue, Hm. cbn [length]. lia. }
  exists rs. split; [exact Hrs|].
  eapply january_single_record_chain; eassumption.
Qed.

Lemma january_schedule_chained_witness :
  exists rs, calculateMonthlyRent quarterlyContract = Some (Normal rs) /\
             amountsChained quarterlyContract rs.
Proof.
  apply january_schedule_chained.
  - vm_compute. split; discriminate.
  - vm_compute. reflexivity.
Defined.

(** The loop only appends. *)
Lemma rentLoop_extends c fuel month rs out :
  rentLoop fuel c month rs = Some (Normal out) -> exists tail, out = rs ++ tail.
Proof.
  intros Hrun.
  eapply (rentLoop_invariant c (fun _ x => exists tail, x = rs ++ tail)) in Hrun.
  - destruct Hrun as (_ & _ & H & _). exact H.
  - intros m rs0 l r (tail & ->) _ _ _. exists (tail ++ [r]).
    rewrite app_assoc. reflexivity.
  - exists []. rewrite app_nil_r. reflexivity.
Qed.

(** X18. When the first due date is in January and the window ends in its
    year or later, the loop runs at least once and its first iteration
    escalates, whatever the frequency (other than 0): the counter starts at
    0, which is a multiple of every frequency.  The record after the first
    month carries the escalated amount. *)
Theorem january_escalates_at_once c :
  let first := calculateFirstMonthRent (dayOfMonthRentDue c) (leaseStartDate c)
                 (baseMonthlyRent c) (rentChangeRate c) in
  let due := correctRentDueDate (getFullYear (leaseStartDate c))
               (getMonth (leaseStartDate c)) (dayOfMonthRentDue c) in
  getMonth due = 0 ->
  rentRateChangeFrequency c <> 0 ->
  getFullYear due <= getFullYear (windowEndDate c) ->
  exists rs f0 r,
    calculateMonthlyRent c = Some (Normal rs) /\
    lastRecord first = Some f0 /\
    nth_error rs (length first) = Some r /\
    rentAmount r =
    roundToTwoDecimalPlaces
      (calculateNewMonthlyRent (rentAmount f0) (rentChangeRate c)).
Proof.
  intros first due Hjan Hf Hy.
  destruct (calculateMonthlyRent_loop c) as (fuel & f0 & Hlast & Hdue & E & Hrun).
  fold first due in Hlast, Hdue, E, Hrun.
  assert (Hne : (1 <= length first)%nat).
  { destruct first; [discriminate|cbn [length]; lia]. }
  destruct (counter_below_length c) as (rs & _ & Hrs & _).
  { fold first due. lia. }
  rewrite Hrs in E. symmetry in E.
  destruct fuel as [|fuel]; [discriminate|].
  cbn [rentLoop] in E. rewrite Hlast, Hdue, Hjan in E.
  pose proof (MonthFromDay_range (localDay (windowEndDate c))) as RE.
  fold (getMonth (windowEndDate c)) in RE.
  assert (Hdiff : 0 <= calculateMonthDifference (windowEndDate c) due).
  { unfold calculateMonthDifference. rewrite Hjan.
    destruct (Z.gtb_spec (getFullYear due) (getFullYear (windowEndDate c))); [lia|].
    destruct (Z.eqb_spec (getFullYear due) (getFullYear (windowEndDate c))); [lia|].
    destruct (Z.gtb_spec 0 (getMonth (windowEndDate c))); lia. }
  rewrite (proj2 (Z.leb_le _ _) Hdiff) in E.
  assert (Hrem : rem_is_zero 0 (rentRateChangeFrequency c) = true).
  { unfold rem_is_zero. rewrite (proj2 (Z.eqb_neq _ _) Hf), Z.rem_0_l by exact Hf.
    reflexivity. }
  rewrite Hrem in E.
  apply rentLoop_extends in E. destruct E as (tail & ->).
  eexists. exists f0. eexists. split; [exact Hrs|]. split; [exact Hlast|].
  split.
  - rewrite <- app_assoc. rewrite nth_error_app2 by lia.
    rewrite Nat.sub_diag. reflexivity.
  - reflexivity.
Qed.

Lemma january_escalates_at_once_witness :
  exists rs f0 r,
    calculateMonthlyRent shortWindowContract = Some (Normal rs) /\
    lastRecord [mkRecord false 1000 (newDate 2024 0 15)] = Some f0 /\
    nth_error rs 1 = Some r /\
    rentAmount r =
    roundToTwoDecimalPlaces (calculateNewMonthlyRent (rentAmount f0) 0.05).
Proof.
  apply (january_escalates_at_once shortWindowContract).
  - vm_compute. reflexivity.
  - vm_compute. discriminate.
  - vm_compute. discriminate.
Defined.

(* ================================================================= *)
(** ** A change every month *)

(** X19. With a change every month no iteration looks back by the counter:
    [calculateMonthlyRent] returns a schedule, and from the last record of
    the first month on each amount is the rounded escalation of the amount
    before it. *)
Theorem monthly_change_compounds c :
  rentRateChangeFrequency c = 1 ->
  let first := calculateFirstMonthRent (dayOfMonthRentDue c) (leaseStartDate c)
                 (baseMonthlyRent c) (rentChangeRate c) in
  exists rs,
    calculateMonthlyRent c = Some (Normal rs) /\
    escalatedFrom c (length first - 1) rs.
Proof.
  intros Hf first.
  destruct (calculateMonthlyRent_loop c) as (fuel & f0 & Hlast & Hdue & -> & Hrun).
  fold first in Hlast, Hrun |- *.
  assert (Hrem : forall m, rem_is_zero m (rentRateChangeFrequency c) = true).
  { intros m. rewrite Hf. unfold rem_is_zero. cbn [Z.eqb].
    rewrite Z.rem_1_r. reflexivity. }
  set (P := fun (_ : Z) (rs : MonthlyRentRecords) =>
              rs <> [] /\ escalatedFrom c (length first - 1) rs).
  destruct (rentLoop_returns c P) with (fuel := fuel) (rs := first)
    (month := getMonth (correctRentDueDate (getFullYear (leaseStartDate c))
                          (getMonth (leaseStartDate c)) (dayOfMonthRentDue c)))
    as (out & _ & _ & E & [_ HP] & _); [| | |exact Hrun|eauto].
  - intros month rs lastRec r [Hne Hesc] Hl _ Happ. split.
    + intros Hnil. apply app_eq_nil in Hnil. destruct Hnil; discriminate.
    + intros i a b Hk Ha Hb.
      destruct (Nat.lt_ge_cases (S i) (length rs)) as [Hlt|Hge].
      * rewrite nth_error_app1 in Ha, Hb by lia. eapply Hesc; eassumption.
      * assert (Hi : S i = length rs).
        { assert (S i < length (rs ++ [r]))%nat
            by (apply nth_error_Some; congruence).
          rewrite length_app in *. cbn [length] in *. lia. }
        rewrite nth_error_app2, Hi, Nat.sub_diag in Hb by lia.
        injection Hb as <-.
        rewrite nth_error_app1 in Ha by lia.
        apply lastRecord_nth in Hl.
        replace (length rs - 1)%nat with i in Hl by lia.
        rewrite Hl in Ha. injection Ha as <-.
        destruct Happ as [_|r' Hr' _]; [reflexivity|].
        rewrite Hrem in Hr'. discriminate.
  - intros month rs [Hne _]. split.
    + unfold lastRecord. intros E. apply nth_error_None in E.
      destruct rs; [congruence|cbn [length] in E; lia].
    + rewrite Hrem. discriminate.
  - split.
    + intros Hnil. rewrite Hnil in Hlast. discriminate.
    + intros i a b Hk _ Hb.
      assert (S i < length first)%nat by (apply nth_error_Some; congruence). lia.
Qed.

Lemma monthly_change_compounds_witness :
  exists rs,
    calculateMonthlyRent vacantContract = Some (Normal rs) /\
    escalatedFrom vacantContract 0 rs.
Proof.
  apply (monthly_change_compounds vacantContract). reflexivity.
Defined.

(* ================================================================= *)
(** ** How far the schedule goes *)

(** X20. The schedule starts with the first-month records as
    [calculateFirstMonthRent] gives them, and every amount added after them
    is a value of [roundToTwoDecimalPlaces]. *)
Theorem schedule_extends_first_month c rs :
  calculateMonthlyRent c = Some (Normal rs) ->
  exists tail,
    rs = calculateFirstMonthRent (dayOfMonthRentDue c) (leaseStartDate c)
           (baseMonthlyRent c) (rentChangeRate c) ++ tail /\
    Forall (fun r => exists x, rentAmount r = roundToTwoDecimalPlaces x) tail.
Proof.
  intros Hrun.
  destruct (calculateMonthlyRent_loop c) as (fuel & f0 & Hlast & Hdue & E & _).
  rewrite E in Hrun. clear E.
  set (first := calculateFirstMonthRent (dayOfMonthRentDue c) (leaseStartDate c)
                  (baseMonthlyRent c) (rentChangeRate c)) in *.
  eapply (rentLoop_invariant c
            (fun _ rs => exists tail, rs = first ++ tail /\
               Forall (fun r => exists x, rentAmount r = roundToTwoDecimalPlaces x) tail))
    in Hrun.
  - destruct Hrun as (_ & _ & H & _). exact H.
  - intros month rs0 lastRec r (tail & -> & HF) _ _ Happ.
    exists (tail ++ [r]). split; [rewrite app_assoc; reflexivity|].
    apply Forall_app. split; [exact HF|].
    constructor; [|constructor].
    destruct Happ; cbn [rentAmount]; eexists; reflexivity.
  - exists []. split; [rewrite app_nil_r; reflexivity|constructor].
Qed.

Lemma schedule_extends_first_month_witness :
  exists tail,
    [ mkRecord false 166.67 (newDate 2024 0 10);
      mkRecord false 1000 (newDate 2024 0 15);
      mkRecord false 1050 (newDate 2024 1 15);
      mkRecord false 1000 (newDate 2024 2 15) ] =
    [ mkRecord false 166.67 (newDate 2024 0 10);
      mkRecord false 1000 (newDate 2024 0 15) ] ++ tail /\
    Forall (fun r => exists x, rentAmount r = roundToTwoDecimalPlaces x) tail.
Proof.
  apply (schedule_extends_first_month twoSeedContract). vm_compute. reflexivity.
Defined.

(** X21. However far the window extends, every record is due between January
    of the lease-start year and January of the year after: each due date is
    built in the lease-start year from the month after the month of the
    last record.  From the last record of the first month on, each record
    is due on the due day, or on the last day of its month when the month
    is shorter. *)
Theorem due_dates_stay_near_lease_year c rs :
  1 <= dayOfMonthRentDue c ->
  100 <= getFullYear (leaseStartDate c) ->
  calculateMonthlyRent c = Some (Normal rs) ->
  let first := calculateFirstMonthRent (dayOfMonthRentDue c) (leaseStartDate c)
                 (baseMonthlyRent c) (rentChangeRate c) in
  let january := 12 * getFullYear (leaseStartDate c) in
  Forall (fun r => january <= monthIndex (rentDueDate r) <= january + 12) rs /\
  Forall (fun r => getDate (rentDueDate r) =
                   Z.min (dayOfMonthRentDue c)
                     (daysOfMonth (getFullYear (rentDueDate r))
                        (getMonth (rentDueDate r))))
    (skipn (length first - 1) rs).
Proof.
  intros Hd HY Hrun first january.
  set (L := leaseStartDate c) in *. set (Y := getFullYear L) in *.
  set (d := dayOfMonthRentDue c) in *.
  pose proof (fullYearOf_late Y HY) as HF.
  set (A := fun r => january <= monthIndex (rentDueDate r) <= january + 12).
  set (B := fun r => getDate (rentDueDate r) =
                     Z.min d (daysOfMonth (getFullYear (rentDueDate r))
                                (getMonth (rentDueDate r)))).
  assert (Hdue : forall k r, 0 <= k <= 12 ->
            rentDueDate r = correctRentDueDate Y k d -> A r /\ B r).
  { intros k r Hk Hr. unfold A, B. rewrite Hr.
    destruct (correctRentDueDate_spec Y k d Hd) as (SY & SM & SD & _).
    unfold monthIndex. rewrite SD, SY, SM. split; [|reflexivity].
    unfold carriedYear, carriedMonth, january. rewrite HF. fold Y.
    Z.div_mod_to_equations. lia. }
  pose proof (MonthFromDay_range (localDay L)) as Rm. fold (getMonth L) in Rm.
  destruct (calculateFirstMonthRent_shape d L (baseMonthlyRent c) (rentChangeRate c))
    as (pre & amount & Hfirst & Hpre).
  fold first in Hfirst.
  assert (Hlen : (length first - 1)%nat = length pre)
    by (rewrite Hfirst, length_app; cbn; lia).
  destruct (calculateMonthlyRent_loop c) as (fuel & f0 & _ & _ & E & _).
  rewrite E in Hrun. clear E. fold L d first in Hrun.
  eapply (rentLoop_invariant c
            (fun _ rs => exists body, rs = pre ++ body /\ Forall A rs /\ Forall B body))
    in Hrun.
  - destruct Hrun as (_ & _ & (body & -> & HA & HB) & _).
    split; [exact HA|].
    rewrite Hlen, skipn_app, skipn_all, Nat.sub_diag. exact HB.
  - intros month rs0 lastRec r (body & -> & HA & HB) _ _ Happ.
    pose proof (MonthFromDay_range (localDay (rentDueDate lastRec))) as Rk.
    fold (getMonth (rentDueDate lastRec)) in Rk.
    destruct (Hdue (getMonth (rentDueDate lastRec) + 1) r ltac:(lia)) as [Ar Br].
    { destruct Happ; reflexivity. }
    exists (body ++ [r]). split; [rewrite app_assoc; reflexivity|].
    split; apply Forall_app; split; try assumption; constructor; auto.
  - destruct (Hdue (getMonth L)
                (mkRecord (isVacant (rentChangeRate c)) amount
                   (correctRentDueDate Y (getMonth L) d)) ltac:(lia) eq_refl)
      as [Af Bf].
    eexists. split; [exact Hfirst|]. split.
    + rewrite Hfirst. apply Forall_app. split; [|constructor; auto].
      destruct Hpre as [->|(a & _ & ->)]; constructor; [|constructor].
      unfold A, monthIndex, january. cbn [rentDueDate]. fold Y. lia.
    + constructor; auto.
Qed.

Lemma due_dates_stay_near_lease_year_witness :
  Forall (fun r => 12 * 2024 <= monthIndex (rentDueDate r) <= 12 * 2024 + 12)
    [ mkRecord false 1000 (newDate 2024 0 15);
      mkRecord false 1050 (newDate 2024 1 15);
      mkRecord false 1050 (newDate 2024 2 15) ].
Proof.
  refine (proj1 (due_dates_stay_near_lease_year scenarioContract _ _ _ _)).
  - vm_compute. discriminate.
  - vm_compute. discriminate.
  - vm_compute. reflexivity.
Defined.

(** X22. Each record after the first month is due in the month that follows
    the month number of the record before it, counted in the lease-start
    year: after a record due in December comes January of the next year,
    and after that February of the lease-start year again. *)
Theorem due_dates_restart_in_lease_year c rs :
  1 <= dayOfMonthRentDue c ->
  100 <= getFullYear (leaseStartDate c) ->
  calculateMonthlyRent c = Some (Normal rs) ->
  let first := calculateFirstMonthRent (dayOfMonthRentDue c) (leaseStartDate c)
                 (baseMonthlyRent c) (rentChangeRate c) in
  adjacent (fun a b => monthIndex b =
                       12 * getFullYear (leaseStartDate c) + getMonth a + 1)
    (skipn (length first - 1) rs).
Proof.
  intros Hd HY Hrun first.
  set (Y := getFullYear (leaseStartDate c)) in *.
  pose proof (fullYearOf_late Y HY) as HF.
  set (R := fun a b : Date => monthIndex b = 12 * Y + getMonth a + 1).
  destruct (calculateFirstMonthRent_shape (dayOfMonthRentDue c) (leaseStartDate c)
              (baseMonthlyRent c) (rentChangeRate c)) as (pre & amount & Hfirst & _).
  fold first Y in Hfirst.
  assert (Hlen : (length first - 1)%nat = length pre)
    by (rewrite Hfirst, length_app; cbn; lia).
  destruct (calculateMonthlyRent_loop c) as (fuel & f0 & _ & _ & E & _).
  rewrite E in Hrun. clear E. fold first in Hrun.
  eapply (rentLoop_invariant c
            (fun _ rs => exists body, rs = pre ++ body /\ body <> [] /\ adjacent R body))
    in Hrun.
  - destruct Hrun as (_ & _ & (body & -> & _ & HA) & _).
    rewrite Hlen, skipn_app, skipn_all, Nat.sub_diag. exact HA.
  - intros month rs0 lastRec r (body & -> & Hne & HA) Hlast _ Happ.
    rewrite lastRecord_app in Hlast by exact Hne.
    exists (body ++ [r]). split; [rewrite app_assoc; reflexivity|].
    split; [intros Hnil; apply app_eq_nil in Hnil; destruct Hnil; discriminate|].
    eapply adjacent_snoc; [exact HA|exact Hlast|].
    assert (Hr : rentDueDate r =
                 correctRentDueDate Y (getMonth (rentDueDate lastRec) + 1)
                   (dayOfMonthRentDue c))
      by (destruct Happ; reflexivity).
    pose proof (MonthFromDay_range (localDay (rentDueDate lastRec))) as Rk.
    fold (getMonth (rentDueDate lastRec)) in Rk.
    destruct (correctRentDueDate_spec Y (getMonth (rentDueDate lastRec) + 1)
                (dayOfMonthRentDue c) Hd) as (SY & SM & _).
    unfold R, monthIndex. rewrite Hr, SY, SM.
    unfold carriedYear, carriedMonth. rewrite HF.
    Z.div_mod_to_equations. lia.
  - eexists. split; [exact Hfirst|]. split; [discriminate|exact I].
Qed.

Lemma due_dates_restart_in_lease_year_witness :
  adjacent (fun a b => monthIndex b = 12 * 2024 + getMonth a + 1)
    [ mkRecord false 1000 (newDate 2024 0 15);
      mkRecord false 1050 (newDate 2024 1 15);
      mkRecord false 1050 (newDate 2024 2 15) ].
Proof.
  refine (due_dates_restart_in_lease_year scenarioContract
            [ mkRecord false 1000 (newDate 2024 0 15);
              mkRecord false 1050 (newDate 2024 1 15);
              mkRecord false 1050 (newDate 2024 2 15) ] _ _ _).
  - vm_compute. discriminate.
  - vm_compute. discriminate.
  - vm_compute. reflexivity.
Defined.

(** X23. For a window that ends in the lease-start year, in month [E]
    (zero-based), the loop compares its counter, which is the month of the
    last record, with the distance from that month to [E]: it stops once
    twice the month of the last record exceeds [E].  The last record is due
    in month [E / 2 + 1], or in the lease-start month when that is later,
    not in the month of the window end. *)
Theorem schedule_stops_midway c rs :
  1 <= dayOfMonthRentDue c ->
  100 <= getFullYear (leaseStartDate c) ->
  getFullYear (windowEndDate c) = getFullYear (leaseStartDate c) ->
  calculateMonthlyRent c = Some (Normal rs) ->
  let first := calculateFirstMonthRent (dayOfMonthRentDue c) (leaseStartDate c)
                 (baseMonthlyRent c) (rentChangeRate c) in
  let start := getMonth (leaseStartDate c) in
  let stop := Z.max start (getMonth (windowEndDate c) / 2 + 1) in
  Z.of_nat (length rs) = Z.of_nat (length first) + (stop - start) /\
  exists l,
    lastRecord rs = Some l /\
    getFullYear (rentDueDate l) = getFullYear (leaseStartDate c) /\
    getMonth (rentDueDate l) = stop.
Proof.
  intros Hd HY Hwin Hrun first start stop.
  set (L := leaseStartDate c) in *. set (Y := getFullYear L) in *.
  set (d := dayOfMonthRentDue c) in *.
  set (E := getMonth (windowEndDate c)) in *.
  pose proof (fullYearOf_late Y HY) as HF.
  pose proof (MonthFromDay_range (localDay L)) as Rm. fold (getMonth L) in Rm.
  fold start in Rm.
  pose proof (MonthFromDay_range (localDay (windowEndDate c))) as RE.
  fold (getMonth (windowEndDate c)) in RE. fold E in RE.
  destruct (calculateFirstMonthRent_shape d L (baseMonthlyRent c) (rentChangeRate c))
    as (pre & amount & Hfirst & Hpre).
  fold first in Hfirst.
  set (f0 := mkRecord (isVacant (rentChangeRate c)) amount
               (correctRentDueDate Y (getMonth L) d)) in *.
  destruct (correctRentDueDate_spec Y (getMonth L) d Hd) as (SY & SM & _ & SD).
  unfold carriedYear, carriedMonth in SY, SM, SD.
  rewrite Z.div_small, Z.add_0_r in SY, SD by lia.
  rewrite Z.mod_small in SM, SD by lia. rewrite HF in SY, SD.
  destruct (calculateMonthlyRent_loop c) as (fuel & f0' & _ & _ & Eq & _).
  rewrite Eq in Hrun. clear Eq f0'. fold L Y d first in Hrun.
  rewrite SM in Hrun. fold start in Hrun.
  eapply (rentLoop_invariant c
            (fun month rs =>
               inLeaseYear c pre f0 month rs /\
               Z.of_nat (length rs) = Z.of_nat (length first) + (month - start) /\
               start <= month /\ (month = start \/ 2 * (month - 1) <= E)))
    in Hrun.
  - destruct Hrun as (k & lastRec & (Hin & Hlen & Hge & Hprev) & Hlast & Hexit).
    destruct Hin as (tail & body & l & dd & Hb & -> & Hl & _ & _ & Hy & Hk & _).
    assert (Hne : body <> []) by (rewrite Hb; discriminate).
    rewrite lastRecord_app, Hl in Hlast by assumption. injection Hlast as <-.
    unfold calculateMonthDifference in Hexit.
    rewrite Hy, Hwin, Hk in Hexit. fold L Y E in Hexit.
    rewrite Z.gtb_ltb, Z.ltb_irrefl, Z.eqb_refl in Hexit.
    assert (Hstop : k = stop) by (unfold stop; Z.div_mod_to_equations; lia).
    split; [lia|].
    exists l. rewrite lastRecord_app, Hl by assumption.
    repeat split; [exact Hy|]. rewrite Hk. exact Hstop.
  - intros month rs0 lastRec r (Hin & Hlen & Hge & Hprev) Hlast Hle Happ.
    split; [eapply (inLeaseYear_step c Hd Hwin); eauto|].
    split; [rewrite length_app; cbn [length]; lia|].
    split; [lia|]. right.
    destruct Hin as (tail & body & l & dd & Hb & -> & Hl & _ & _ & Hy & Hk & _).
    assert (Hne : body <> []) by (rewrite Hb; discriminate).
    rewrite lastRecord_app, Hl in Hlast by assumption. injection Hlast as <-.
    unfold calculateMonthDifference in Hle.
    rewrite Hy, Hwin, Hk in Hle. fold L Y E in Hle.
    rewrite Z.gtb_ltb, Z.ltb_irrefl, Z.eqb_refl in Hle. lia.
  - split; [|split; [lia|split; [lia|left; reflexivity]]].
    exists [], [f0], f0, (Z.min d (daysOfMonth Y (getMonth L))).
    repeat split; try assumption; try reflexivity. apply Z.le_min_r.
Qed.

Lemma schedule_stops_midway_witness :
  Z.of_nat (length (A := MonthlyRentRecord)
    [ mkRecord false 1000 (newDate 2024 0 31);
      mkRecord false 1050 (newDate 2024 1 29);
      mkRecord false 1102.5 (newDate 2024 2 31);
      mkRecord false 1157.63 (newDate 2024 3 30);
      mkRecord false 1215.51 (newDate 2024 4 31);
      mkRecord false 1276.29 (newDate 2024 5 30);
      mkRecord false 1340.1 (newDate 2024 6 31) ]) = 1 + (6 - 0).
Proof.
  refine (proj1 (schedule_stops_midway yearContract _ _ _ _ _)).
  - vm_compute. discriminate.
  - vm_compute. discriminate.
  - vm_compute. reflexivity.
  - vm_compute. reflexivity.
Defined.

(* ================================================================= *)
(** ** Rounding, at the edges *)

Lemma SFeqb_refl_finite s m e :
  SFeqb (S754_finite s m e) (S754_finite s m e) = true.
Proof.
  unfold SFeqb. cbn [SFcompare].
  rewrite Z.compare_refl.
  change (Pos.compare_cont Eq m m) with (Pos.compare m m).
  rewrite Pos.compare_refl. destruct s; reflexivity.
Qed.

(** A number that is [NaN] or infinite is one of three values. *)
Lemma non_finite_cases x :
  (is_nan x || is_infinity x) = true ->
  x = nan \/ x = infinity \/ x = neg_infinity.
Proof.
  unfold is_nan, is_infinity.
  rewrite !FloatAxioms.eqb_spec, abs_spec.
  change (Prim2SF infinity) with (S754_infinity false).
  intros H.
  rewrite <- (SF2Prim_Prim2SF x).
  destruct (Prim2SF x) as [s|s| |s m e].
  - destruct s; discriminate.
  - right. destruct s; [right|left]; reflexivity.
  - left. reflexivity.
  - rewrite SFeqb_refl_finite in H. discriminate.
Qed.

(** X24. [roundToTwoDecimalPlaces] returns [NaN] and the two infinities as
    they are: an amount that is not finite stays so in every record made
    from it. *)
Theorem round_keeps_non_finite x :
  (is_nan x || is_infinity x) = true -> roundToTwoDecimalPlaces x = x.
Proof.
  intros H. destruct (non_finite_cases x H) as [->|[->| ->]];
    vm_compute; reflexivity.
Qed.

Lemma round_keeps_non_finite_witness :
  roundToTwoDecimalPlaces (0 / 0) = (0 / 0)%float /\
  roundToTwoDecimalPlaces (1 / 0) = (1 / 0)%float.
Proof.
  split; apply round_keeps_non_finite; vm_compute; reflexivity.
Defined.

(** X25. An amount that is a whole number of cents, the number closest to
    [n / 100] for an integer [n] below [2^49] in magnitude, is a fixed
    point of [roundToTwoDecimalPlaces]. *)
Theorem round_keeps_cents n :
  Z.abs n < 2 ^ 49 ->
  roundToTwoDecimalPlaces (of_Z n / 100) = (of_Z n / 100)%float.
Proof.
  intros H. destruct (Z.eq_dec n 0) as [->|Hn].
  - vm_compute. reflexivity.
  - apply round_hundredths; assumption.
Qed.

Lemma round_keeps_cents_witness :
  roundToTwoDecimalPlaces 1157.63 = 1157.63%float /\
  roundToTwoDecimalPlaces (-0.07) = (-0.07)%float.
Proof.
  split.
  - refine (round_keeps_cents 115763 _). vm_compute. reflexivity.
  - refine (round_keeps_cents (-7) _). vm_compute. reflexivity.
Defined.

(* ================================================================= *)
(** ** Exact products and quotients *)

Lemma shr_1_double q :
  0 < q ->
  shr_1 (Build_shr_record (q * 2) false false) = Build_shr_record q false false.
Proof.
  intros Hq. destruct q as [|p|p]; try lia.
  rewrite Z.mul_comm. reflexivity.
Qed.

(** Dropping [p] zero bits loses nothing. *)
Lemma iter_pos_shr_exact p : forall q,
  0 < q ->
  iter_pos shr_1 p (Build_shr_record (q * 2 ^ Z.pos p) false false)
  = Build_shr_record q false false.
Proof.
  induction p as [p IH|p IH|]; intros q Hq; cbn [iter_pos].
  - assert (P : 0 < 2 ^ Z.pos p) by (apply Z.pow_pos_nonneg; lia).
    replace (q * 2 ^ Z.pos p~1) with (q * 2 ^ Z.pos p * 2 ^ Z.pos p * 2).
    + rewrite shr_1_double by nia. rewrite IH by nia. apply IH. exact Hq.
    + replace (Z.pos p~1) with (Z.pos p + Z.pos p + 1) by lia.
      rewrite !Z.pow_add_r by lia. change (2 ^ 1) with 2. ring.
  - assert (P : 0 < 2 ^ Z.pos p) by (apply Z.pow_pos_nonneg; lia).
    replace (q * 2 ^ Z.pos p~0) with (q * 2 ^ Z.pos p * 2 ^ Z.pos p).
    + rewrite IH by nia. apply IH. exact Hq.
    + replace (Z.pos p~0) with (Z.pos p + Z.pos p) by lia.
      rewrite !Z.pow_add_r by lia. ring.
  - change (2 ^ 1) with 2. apply shr_1_double. exact Hq.
Qed.

(** Rounding a number of 53 bits followed by [j] zero bits, given exactly,
    only drops the zero bits. *)
Lemma binary_round_aux_shifted s q j E :
  2 ^ 52 <= Z.pos q < 2 ^ 53 -> 0 <= j -> -1074 <= E + j -> E + j <= 971 ->
  binary_round_aux prec emax s (Z.pos q * 2 ^ j) E loc_Exact
  = S754_finite s q (E + j).
Proof.
  intros Hq Hj Hmin Hmax.
  assert (PJ : 0 < 2 ^ j) by (apply Z.pow_pos_nonneg; lia).
  assert (Hd : Zdigits2 (Z.pos q * 2 ^ j) = 53 + j).
  { destruct (Z.pos q * 2 ^ j) as [|p|p] eqn:Ep; try lia.
    cbn [Zdigits2]. apply digits2_pos_unique.
    replace (53 + j - 1) with (52 + j) by lia.
    rewrite !Z.pow_add_r by lia. rewrite <- Ep. nia. }
  assert (F : fexp prec emax (53 + j + E) - E = j)
    by (unfold fexp, SpecFloat.emin, prec, emax; lia).
  assert (F0 : fexp prec emax (53 + (E + j)) - (E + j) = 0)
    by (unfold fexp, SpecFloat.emin, prec, emax; lia).
  unfold binary_round_aux, shr_fexp. rewrite Hd, F.
  cbn [shr_record_of_loc]. unfold shr.
  destruct j as [|pj|pj]; try lia.
  - rewrite Z.pow_0_r, Z.mul_1_r.
    cbn [shr_m loc_of_shr_record round_nearest_even Zdigits2].
    rewrite (digits2_pos_unique q 53) by exact Hq.
    rewrite Z.add_0_r in *. rewrite F0.
    cbn [shr_m].
    replace (E <=? emax - prec) with true
      by (symmetry; apply Z.leb_le; unfold emax, prec; lia).
    reflexivity.
  - rewrite iter_pos_shr_exact by lia.
    cbn [shr_m loc_of_shr_record round_nearest_even Zdigits2].
    rewrite (digits2_pos_unique q 53) by exact Hq.
    rewrite F0. cbn [shr_m].
    replace (E + Z.pos pj <=? emax - prec) with true
      by (symmetry; apply Z.leb_le; unfold emax, prec; lia).
    reflexivity.
Qed.

(** The product of an integer below [2^46] and 100 is exact. *)
Lemma of_Z_times_hundred n :
  1 <= Z.abs n < 2 ^ 46 -> (of_Z n * 100)%float = of_Z (100 * n).
Proof.
  intros Hn.
  assert (C46 : 2 ^ 46 = 70368744177664) by reflexivity.
  assert (C52 : 2 ^ 52 = 4503599627370496) by reflexivity.
  assert (C53 : 2 ^ 53 = 9007199254740992) by reflexivity.
  destruct (Prim2SF_of_Z n ltac:(lia)) as (ma & u & E & Hu & Hv & Hr).
  destruct (Prim2SF_of_Z (100 * n) ltac:(lia)) as (mb & v & E' & Hu' & Hv' & Hr').
  apply Prim2SF_inj. rewrite mul_spec, E, E', Prim2SF_hundred.
  unfold SF64mul, hundred. cbn [SFmul]. rewrite xorb_false_r.
  replace (100 * n <? 0) with (n <? 0)
    by (destruct (Z.ltb_spec n 0), (Z.ltb_spec (100 * n) 0); lia).
  assert (PU : 0 < 2 ^ u) by (apply Z.pow_pos_nonneg; lia).
  assert (PV : 0 < 2 ^ v) by (apply Z.pow_pos_nonneg; lia).
  assert (Hvu : v <= u).
  { destruct (Z.le_gt_cases v u) as [|G]; [assumption|exfalso].
    assert (2 ^ (u + 1) <= 2 ^ v) by (apply Z.pow_le_mono_r; lia).
    rewrite Z.pow_add_r in * by lia. change (2 ^ 1) with 2 in *.
    rewrite Z.abs_mul in Hv'. change (Z.abs 100) with 100 in Hv'. nia. }
  assert (Esplit : 2 ^ u = 2 ^ v * 2 ^ (u - v))
    by (rewrite <- Z.pow_add_r by lia; f_equal; lia).
  assert (Eprod : Z.pos (ma * 7036874417766400) = Z.pos mb * 2 ^ (u - v + 46)).
  { rewrite Pos2Z.inj_mul, Hv, Hv', Z.abs_mul. change (Z.abs 100) with 100.
    rewrite Z.pow_add_r by lia. rewrite C46, Esplit. ring. }
  rewrite Eprod.
  rewrite binary_round_aux_shifted by lia.
  f_equal. lia.
Qed.

(** [Math.round] leaves an integer below [2^53] as it is. *)
Lemma Math_round_of_Z N :
  1 <= Z.abs N < 2 ^ 53 -> Math_round (of_Z N) = of_Z N.
Proof.
  intros HN.
  destruct (Prim2SF_of_Z N HN) as (ma & u & E & Hu & Hv & Hr).
  unfold Math_round, roundedInteger. rewrite E.
  destruct (Z.leb_spec 0 (- u)) as [|Hneg]; [reflexivity|].
  replace (- - u) with u by lia.
  assert (PU : 0 < 2 ^ u) by (apply Z.pow_pos_nonneg; lia).
  rewrite Z.pow_add_r by lia. change (2 ^ 1) with 2.
  assert (R : (2 * (if N <? 0 then Z.neg ma else Z.pos ma) + 2 ^ u) / (2 ^ u * 2) = N).
  { symmetry. apply (Z.div_unique _ _ _ (2 ^ u)); [lia|].
    destruct (Z.ltb_spec N 0).
    - rewrite <- Pos2Z.opp_pos, Hv. rewrite Z.abs_neq by lia. ring.
    - rewrite Hv. rewrite Z.abs_eq by lia. ring. }
  rewrite R. rewrite (proj2 (Z.eqb_neq N 0)) by lia. reflexivity.
Qed.

(** The quotient of a multiple of 100 below [2^53] and 100 is exact. *)
Lemma of_Z_hundredfold_div n :
  1 <= Z.abs n < 2 ^ 46 -> (of_Z (100 * n) / 100)%float = of_Z n.
Proof.
  intros Hn.
  assert (C46 : 2 ^ 46 = 70368744177664) by reflexivity.
  assert (C52 : 2 ^ 52 = 4503599627370496) by reflexivity.
  assert (C53 : 2 ^ 53 = 9007199254740992) by reflexivity.
  destruct (Prim2SF_of_Z n ltac:(lia)) as (ma & u & E & Hu & Hv & Hr).
  destruct (Prim2SF_of_Z (100 * n) ltac:(lia)) as (mb & v & E' & Hu' & Hv' & Hr').
  apply Prim2SF_inj. rewrite div_spec, E, E', Prim2SF_hundred.
  replace (100 * n <? 0) with (n <? 0)
    by (destruct (Z.ltb_spec n 0), (Z.ltb_spec (100 * n) 0); lia).
  rewrite Z.abs_mul in Hv'. change (Z.abs 100) with 100 in Hv'.
  assert (PU : 0 < 2 ^ u) by (apply Z.pow_pos_nonneg; lia).
  assert (PV : 0 < 2 ^ v) by (apply Z.pow_pos_nonneg; lia).
  assert (Huv : u <= v + 7).
  { destruct (Z.le_gt_cases u (v + 7)) as [|G]; [assumption|exfalso].
    assert (2 ^ (v + 8) <= 2 ^ u) by (apply Z.pow_le_mono_r; lia).
    rewrite Z.pow_add_r in * by lia. change (2 ^ 8) with 256 in *. nia. }
  assert (Esplit : 2 ^ (v + 7) = 2 ^ u * 2 ^ (v + 7 - u))
    by (rewrite <- Z.pow_add_r by lia; f_equal; lia).
  unfold SF64div, hundred. cbn [SFdiv]. rewrite xorb_false_r.
  unfold SFdiv_core_binary. cbn [Zdigits2].
  rewrite (digits2_pos_unique mb 53) by exact Hr'.
  change (Z.pos (digits2_pos 7036874417766400)) with 53.
  assert (F : Z.min (fexp prec emax (53 + - v - (53 + -46))) (- v - -46) = - v - 7)
    by (unfold fexp, SpecFloat.emin, prec, emax; lia).
  rewrite F.
  replace (- v - -46 - (- v - 7)) with 53 by lia.
  rewrite Z.shiftl_mul_pow2 by lia.
  pose proof (Z_div_mod (Z.pos mb * 2 ^ 53) 7036874417766400 ltac:(lia)) as Hdm.
  destruct (Z.div_eucl (Z.pos mb * 2 ^ 53) 7036874417766400) as [q r].
  destruct Hdm as [Hq Hrr].
  assert (EK : Z.pos mb * 2 ^ 53 = 7036874417766400 * (Z.pos ma * 2 ^ (v + 7 - u))).
  { rewrite Hv, Hv', C53.
    replace (Z.abs n * 2 ^ u * 2 ^ (v + 7 - u)) with (Z.abs n * 2 ^ (v + 7))
      by (rewrite Esplit; ring).
    rewrite Z.pow_add_r by lia. change (2 ^ 7) with 128. ring. }
  assert (Pj : 0 < 2 ^ (v + 7 - u)) by (apply Z.pow_pos_nonneg; lia).
  set (K := Z.pos ma * 2 ^ (v + 7 - u)) in *.
  assert (Eq0 : q = K /\ r = 0).
  { assert (7036874417766400 * (K - q) = r) by lia.
    assert (K - q = 0) by nia. lia. }
  destruct Eq0 as [-> ->].
  change (new_location 7036874417766400 0) with loc_Exact.
  unfold K. rewrite binary_round_aux_shifted by lia.
  f_equal. lia.
Qed.

(** A whole number other than 0 is a fixed point of the rounding. *)
Lemma round_of_Z n :
  1 <= Z.abs n < 2 ^ 46 -> roundToTwoDecimalPlaces (of_Z n) = of_Z n.
Proof.
  intros H.
  assert (C46 : 2 ^ 46 = 70368744177664) by reflexivity.
  assert (C53 : 2 ^ 53 = 9007199254740992) by reflexivity.
  unfold roundToTwoDecimalPlaces.
  rewrite of_Z_times_hundred by exact H.
  rewrite Math_round_of_Z by lia.
  apply of_Z_hundredfold_div. exact H.
Qed.

(** X26. An amount that is a whole number below [2^46] in magnitude is not
    changed by [roundToTwoDecimalPlaces]: the product with 100 and the
    quotient by 100 are exact. *)
Theorem round_keeps_whole_numbers n :
  Z.abs n < 2 ^ 46 -> roundToTwoDecimalPlaces (of_Z n) = of_Z n.
Proof.
  intros H. destruct (Z.eq_dec n 0) as [->|Hn].
  - vm_compute. reflexivity.
  - apply round_of_Z. lia.
Qed.

Lemma round_keeps_whole_numbers_witness :
  roundToTwoDecimalPlaces 1000 = 1000%float /\
  roundToTwoDecimalPlaces (-70368744177663) = (-70368744177663)%float.
Proof.
  split.
  - refine (round_keeps_whole_numbers 1000 _). vm_compute. reflexivity.
  - refine (round_keeps_whole_numbers (-70368744177663) _). vm_compute. reflexivity.
Defined.

(* ================================================================= *)
(** ** A rate of zero *)

(** A rate that equals zero is one of the two zeros, and adding it to 1
    gives 1. *)
Lemma calculateNewMonthlyRent_zero base rate :
  (rate =? 0)%float = true -> calculateNewMonthlyRent base rate = base.
Proof.
  rewrite FloatAxioms.eqb_spec. change (Prim2SF 0) with (S754_zero false).
  intros H.
  assert (C : rate = 0%float \/ rate = (-0)%float).
  { rewrite <- (SF2Prim_Prim2SF rate).
    destruct (Prim2SF rate) as [[|]|[|]| |[|] m e]; cbn in H; try discriminate.
    - right. reflexivity.
    - left. reflexivity. }
  unfold calculateNewMonthlyRent.
  destruct C as [->| ->].
  - change (1 + 0)%float with 1%float. apply mul_one_r.
  - change (1 + -0)%float with 1%float. apply mul_one_r.
Qed.

(** X27. A change rate of zero, of either sign, leaves the rent as it is and
    does not mark the unit vacant. *)
Theorem zero_rate_keeps_rent base rate :
  (rate =? 0)%float = true ->
  calculateNewMonthlyRent base rate = base /\ isVacant rate = false.
Proof.
  intros H. split; [apply calculateNewMonthlyRent_zero; exact H|].
  unfold isVacant. revert H.
  rewrite FloatAxioms.eqb_spec, ltb_spec. change (Prim2SF 0) with (S754_zero false).
  unfold SFeqb, SFltb.
  destruct (Prim2SF rate) as [[|]|[|]| |[|] m e]; cbn; congruence.
Qed.

Lemma zero_rate_keeps_rent_witness :
  calculateNewMonthlyRent 1234.56 0 = 1234.56%float /\ isVacant 0 = false.
Proof.
  apply zero_rate_keeps_rent. vm_compute. reflexivity.
Defined.

(** X28. No change, no rounding error: a lease that starts in January on the
    due day, with a base rent that is a whole number and a change rate of
    zero, gets a schedule in which every record carries the base rent. *)
Theorem flat_schedule_at_zero_rate c n :
  baseMonthlyRent c = of_Z n -> Z.abs n < 2 ^ 46 ->
  (rentChangeRate c =? 0)%float = true ->
  dayOfMonthRentDue c = getDate (leaseStartDate c) ->
  getMonth (leaseStartDate c) = 0 ->
  exists rs,
    calculateMonthlyRent c = Some (Normal rs) /\
    Forall (fun r => rentAmount r = baseMonthlyRent c) rs.
Proof.
  intros Hbase Hn Hrate Hd Hjan.
  set (L := leaseStartDate c) in *.
  destruct (civil_of_day (localDay L)) as [Rd _]. fold (getDate L) in Rd.
  set (f0 := mkRecord (isVacant (rentChangeRate c)) (baseMonthlyRent c)
               (correctRentDueDate (getFullYear L) (getMonth L) (dayOfMonthRentDue c))).
  assert (Hfirst : calculateFirstMonthRent (dayOfMonthRentDue c) L
                     (baseMonthlyRent c) (rentChangeRate c) = [f0]).
  { unfold calculateFirstMonthRent. fold L.
    rewrite (proj2 (Z.eqb_eq _ _) Hd). reflexivity. }
  assert (Hm : getMonth (rentDueDate f0) = 0).
  { cbn [rentDueDate f0]. rewrite Hjan.
    destruct (correctRentDueDate_spec (getFullYear L) 0 (dayOfMonthRentDue c)
                ltac:(lia)) as (_ & M & _). exact M. }
  destruct (counter_below_length c) as (rs & _ & Hrs & _ & _).
  { fold L. rewrite Hfirst. cbn [length]. cbn [rentDueDate f0] in Hm.
    rewrite Hm. lia. }
  pose proof (january_single_record_chain c f0 rs Hfirst Hm Hrs) as Hchain.
  assert (Hext : exists tail, rs = f0 :: tail).
  { destruct (calculateMonthlyRent_loop c) as (fuel & f0' & _ & _ & E & _).
    fold L in E. rewrite Hrs, Hfirst in E. symmetry in E.
    apply rentLoop_extends in E. exact E. }
  destruct Hext as (tail & Hext).
  assert (Hfix : roundToTwoDecimalPlaces (baseMonthlyRent c) = baseMonthlyRent c).
  { rewrite Hbase. destruct (Z.eq_dec n 0) as [->|Hn0].
    - vm_compute. reflexivity.
    - apply round_of_Z. lia. }
  assert (Hall : forall i r, nth_error rs i = Some r -> rentAmount r = baseMonthlyRent c).
  { induction i as [|i IH]; intros r Hr.
    - rewrite Hext in Hr. injection Hr as <-. reflexivity.
    - destruct (nth_error rs i) as [a|] eqn:Ha.
      + rewrite (Hchain i a r Ha Hr). unfold nextAmount.
        rewrite (IH a eq_refl), calculateNewMonthlyRent_zero by exact Hrate.
        destruct (rem_is_zero _ _); exact Hfix.
      + apply nth_error_None in Ha.
        assert (S i < length rs)%nat by (apply nth_error_Some; congruence). lia. }
  exists rs. split; [exact Hrs|].
  apply Forall_forall. intros r Hin.
  destruct (In_nth_error _ _ Hin) as (i & Hi). exact (Hall i r Hi).
Qed.

Lemma flat_schedule_at_zero_rate_witness :
  exists rs,
    calculateMonthlyRent flatContract = Some (Normal rs) /\
    Forall (fun r => rentAmount r = 1200%float) rs.
Proof.
  apply (flat_schedule_at_zero_rate flatContract 1200).
  - vm_compute. reflexivity.
  - vm_compute. reflexivity.
  - vm_compute. reflexivity.
  - vm_compute. reflexivity.
  - vm_compute. reflexivity.
Defined.
